(** * TreasuryManager: a shallow embedding of [src/src/lib.rs]

    A Rust [String] / [&str] is modelled as its UTF-8 byte sequence, one
    [ascii] per byte, so [String.length] is [str::len].  A [usize] is an [N]
    below [2^64]; [+= 1] is written with its wrap-around (release build).
    The wall clock ([chrono::Utc::now().to_rfc3339()]) is an input: the text
    it returns at each call. *)

From Stdlib Require Import ZArith NArith List Lia Bool.
From Stdlib Require Import Strings.String Strings.Ascii.
From Stdlib Require Import Numbers.DecimalString Numbers.DecimalN.
Import ListNotations.
Open Scope string_scope.
Set Warnings "-register-all".

(** ** Rust primitives *)

(** [str::len]: the number of bytes. *)
Definition str_len (s : string) : nat := String.length s.

Definition usize_modulus : N := 2 ^ 64.

(** [usize] addition of 1 with wrap-around. *)
Definition usize_succ (n : N) : N := N.modulo (n + 1) usize_modulus.

(** [Display] for an unsigned integer: decimal digits. *)
Definition usize_to_string (n : N) : string :=
  NilEmpty.string_of_uint (N.to_uint n).

Definition newline : ascii := "010".
Definition carriage_return : ascii := "013".

(** [s.strip_suffix(c)] for a one-byte [c]. *)
Definition strip_suffix (c : ascii) (s : string) : option string :=
  match String.length s with
  | O => None
  | S k =>
      match String.get k s with
      | Some c' => if Ascii.eqb c' c then Some (String.substring 0 k s) else None
      | None => None
      end
  end.

(** [s.split_inclusive('\n')]: pieces ending in their ['\n'], and the
    trailing piece if it is non-empty; [cur] is the piece read so far. *)
Fixpoint split_inclusive_nl (cur s : string) : list string :=
  match s with
  | EmptyString =>
      match cur with
      | EmptyString => []
      | _ => [cur]
      end
  | String c s' =>
      if Ascii.eqb c newline
      then (cur ++ String c EmptyString) :: split_inclusive_nl EmptyString s'
      else split_inclusive_nl (cur ++ String c EmptyString) s'
  end.

(** The map applied by [str::lines] to each piece: drop a ['\n'], then a
    ['\r'] before it. *)
Definition strip_line_ending (line : string) : string :=
  match strip_suffix newline line with
  | None => line
  | Some line' =>
      match strip_suffix carriage_return line' with
      | None => line'
      | Some line'' => line''
      end
  end.

(** [str::lines]. *)
Definition lines (s : string) : list string :=
  map strip_line_ending (split_inclusive_nl EmptyString s).

(** ** [serde_json::Value]

    Numbers are the unsigned integers this program builds ([usize]). A
    [Map] is serde_json's default [BTreeMap]: an association list sorted by
    key in byte order, at most one entry per key. *)
Inductive Value : Type :=
| JNull
| JBool (b : bool)
| JNumber (n : N)
| JString (s : string)
| JArray (l : list Value)
| JObject (m : list (string * Value)).

(** [Map::insert]: replaces the value of an existing key, otherwise adds
    the entry at its place in key order. *)
Fixpoint map_insert (k : string) (v : Value) (m : list (string * Value))
  : list (string * Value) :=
  match m with
  | [] => [(k, v)]
  | (k', v') :: m' =>
      match String.compare k k' with
      | Eq => (k, v) :: m'
      | Lt => (k, v) :: m
      | Gt => (k', v') :: map_insert k v m'
      end
  end.

(** ** [ProcessResult] and [TreasuryManagerProcessor] *)

Record ProcessResult : Type := mkProcessResult {
  success : bool;
  message : string;
  data : option Value
}.

Record TreasuryManagerProcessor : Type := mkProcessor {
  verbose : bool;
  processed_count : N
}.

(** [TreasuryManagerProcessor::new]. *)
Definition new (verbose : bool) : TreasuryManagerProcessor :=
  {| verbose := verbose; processed_count := 0 |}.

(** [get_stats(&self)]: the [json!] object, its map built by inserts. *)
Definition get_stats (self : TreasuryManagerProcessor) : Value :=
  JObject (map_insert "verbose" (JBool (verbose self))
             (map_insert "processed_count" (JNumber (processed_count self)) [])).

(** ** The processor monad: [&mut self], the log and [Result]

    [Box<dyn Error>] is [Error]; the [log] crate's records are collected in
    order. *)
Inductive Level : Type := Info | Debug.

Inductive Error : Type := IoError (msg : string).

Inductive result (A : Type) : Type :=
| Ok (a : A)
| Err (e : Error).
Arguments Ok {A} a.
Arguments Err {A} e.

Definition M (A : Type) : Type :=
  TreasuryManagerProcessor ->
  list (Level * string) * TreasuryManagerProcessor * result A.

Definition ret {A} (a : A) : M A := fun self => ([], self, Ok a).

Definition bind {A B} (m : M A) (f : A -> M B) : M B :=
  fun self =>
    match m self with
    | (l1, self1, Ok a) =>
        let '(l2, self2, r) := f a self1 in ((l1 ++ l2)%list, self2, r)
    | (l1, self1, Err e) => (l1, self1, Err e)
    end.

Notation "'let*' x ':=' m 'in' k" := (bind m (fun x => k))
  (at level 200, x name, m at level 100, k at level 200).

Definition get : M TreasuryManagerProcessor := fun self => ([], self, Ok self).
Definition put (self' : TreasuryManagerProcessor) : M unit :=
  fun _ => ([], self', Ok tt).
Definition log (lvl : Level) (msg : string) : M unit :=
  fun self => ([(lvl, msg)], self, Ok tt).

(** [TreasuryManagerProcessor::process]; [now] is what
    [chrono::Utc::now().to_rfc3339()] returns during the call. *)
Definition process (now : string) (data : string) : M ProcessResult :=
  let* self := get in
  let* _ := (if verbose self
             then log Debug ("Processing data of length: "
                             ++ usize_to_string (N.of_nat (str_len data)))
             else ret tt) in
  let* _ := put {| verbose := verbose self;
                   processed_count := usize_succ (processed_count self) |} in
  let* self := get in
  ret {| success := true;
         message := "Successfully processed item #"
                    ++ usize_to_string (processed_count self);
         data := Some (JObject
                   (map_insert "item_number" (JNumber (processed_count self))
                   (map_insert "processed_at" (JString now)
                   (map_insert "length" (JNumber (N.of_nat (str_len data))) [])))) |}.

(** The loop of [process_input_data]; [clock i] is the clock reading at the
    [i]-th line.  The [?] after [process] leaves the loop with the error
    (the source writes it in a function returning [Vec]; [process] never
    fails, so that branch is never taken). *)
Fixpoint process_lines (clock : nat -> string) (i : nat) (ls : list string)
  : M (list ProcessResult) :=
  match ls with
  | [] => ret []
  | line :: ls' =>
      let* result := process (clock i) line in
      let* results := process_lines clock (S i) ls' in
      ret (result :: results)
  end.

(** [process_input_data]. *)
Definition process_input_data (clock : nat -> string) (input_data : string)
  : M (list ProcessResult) :=
  process_lines clock 0 (lines input_data).

(** ** [serde_json::to_string_pretty]

    The [PrettyFormatter] with its default two-space indent. *)

Definition quote : ascii := "034".
Definition backslash : ascii := "092".
Definition nl : string := String newline EmptyString.

Fixpoint indent (n : nat) : string :=
  match n with
  | O => EmptyString
  | S n' => "  " ++ indent n'
  end.

(** The lower-case hex digit of a value below 16. *)
Definition hex_digit (n : N) : ascii :=
  ascii_of_N (if (n <? 10)%N then 48 + n else 87 + n)%N.

(** serde_json's [ESCAPE] table: the quote, the backslash and the control
    bytes below 0x20 are escaped, every other byte is written as it is. *)
Definition escape_char (c : ascii) : string :=
  let n := N_of_ascii c in
  if Ascii.eqb c quote then String backslash (String quote EmptyString)
  else if Ascii.eqb c backslash then String backslash (String backslash EmptyString)
  else if (n =? 8)%N then "\b"
  else if (n =? 9)%N then "\t"
  else if (n =? 10)%N then "\n"
  else if (n =? 12)%N then "\f"
  else if (n =? 13)%N then "\r"
  else if (n <? 32)%N then
    "\u00" ++ String (hex_digit (n / 16)) (String (hex_digit (n mod 16)) EmptyString)
  else String c EmptyString.

Fixpoint escape_str (s : string) : string :=
  match s with
  | EmptyString => EmptyString
  | String c s' => escape_char c ++ escape_str s'
  end.

(** [format_escaped_str]: the string between quotes. *)
Definition format_string (s : string) : string :=
  String quote (escape_str s ++ String quote EmptyString).

(** The entries of a non-empty array: ["\n"] before the first, [",\n"]
    before the others, each on its own indented line. *)
Fixpoint pretty_elements (pp : Value -> string) (ind : string) (first : bool)
  (l : list Value) : string :=
  match l with
  | [] => EmptyString
  | v :: l' =>
      (if first then nl else "," ++ nl) ++ ind ++ pp v
      ++ pretty_elements pp ind false l'
  end.

Fixpoint pretty_members (pp : Value -> string) (ind : string) (first : bool)
  (m : list (string * Value)) : string :=
  match m with
  | [] => EmptyString
  | (k, v) :: m' =>
      (if first then nl else "," ++ nl) ++ ind ++ format_string k ++ ": "
      ++ pp v ++ pretty_members pp ind false m'
  end.

(** A value written at nesting level [lvl]. *)
Fixpoint to_pretty (lvl : nat) (v : Value) : string :=
  match v with
  | JNull => "null"
  | JBool b => if b then "true" else "false"
  | JNumber n => usize_to_string n
  | JString s => format_string s
  | JArray [] => "[]"
  | JArray l =>
      "[" ++ pretty_elements (to_pretty (S lvl)) (indent (S lvl)) true l
      ++ nl ++ indent lvl ++ "]"
  | JObject [] => "{}"
  | JObject m =>
      "{" ++ pretty_members (to_pretty (S lvl)) (indent (S lvl)) true m
      ++ nl ++ indent lvl ++ "}"
  end.

(** The derived [Serialize] of [ProcessResult] writes an object whose
    fields come in declaration order, [data: None] as [null]; the field list
    is handed to the object writer as it is (it is not a [Map]). *)
Definition process_result_to_value (r : ProcessResult) : Value :=
  JObject [("success", JBool (success r));
           ("message", JString (message r));
           ("data", match data r with Some v => v | None => JNull end)].

Definition to_string_pretty (results : list ProcessResult) : string :=
  to_pretty 0 (JArray (map process_result_to_value results)).

(** ** Reading the output back: [serde_json::from_str::<Value>], then
    [serde_json::from_value::<Vec<ProcessResult>>]

    serde_json's parser over the bytes of a [&str].  Numbers are read as
    the unsigned 64-bit integers of this model; a sign, a fraction, an
    exponent or a value of 2^64 or more (a float for serde_json) is outside
    the model and refused. *)

Definition is_ws (c : ascii) : bool :=
  Ascii.eqb c " " || Ascii.eqb c newline || Ascii.eqb c "009"
  || Ascii.eqb c carriage_return.

(** [parse_whitespace]. *)
Fixpoint skip_ws (s : string) : string :=
  match s with
  | EmptyString => EmptyString
  | String c s' => if is_ws c then skip_ws s' else s
  end.

(** The rest of [s] after the literal prefix [p]. *)
Fixpoint strip_prefix (p s : string) : option string :=
  match p, s with
  | EmptyString, _ => Some s
  | String a p', String b s' => if Ascii.eqb a b then strip_prefix p' s' else None
  | String _ _, EmptyString => None
  end.

Definition hex_val (c : ascii) : option N :=
  let n := N_of_ascii c in
  if (48 <=? n)%N && (n <=? 57)%N then Some (n - 48)%N
  else if (97 <=? n)%N && (n <=? 102)%N then Some (n - 87)%N
  else if (65 <=? n)%N && (n <=? 70)%N then Some (n - 55)%N
  else None.

Definition hex4 (a b c d : ascii) : option N :=
  match hex_val a, hex_val b, hex_val c, hex_val d with
  | Some w, Some x, Some y, Some z => Some (((w * 16 + x) * 16 + y) * 16 + z)%N
  | _, _, _, _ => None
  end.

Definition byte (n : N) : string := String (ascii_of_N n) EmptyString.

(** [char::encode_utf8] of the code point [c]. *)
Definition utf8_encode_char (c : N) : string :=
  if (c <? 128)%N then byte c
  else if (c <? 2048)%N then byte (192 + c / 64) ++ byte (128 + c mod 64)
  else if (c <? 65536)%N then
    byte (224 + c / 4096) ++ byte (128 + (c / 64) mod 64) ++ byte (128 + c mod 64)
  else
    byte (240 + c / 262144) ++ byte (128 + (c / 4096) mod 64)
    ++ byte (128 + (c / 64) mod 64) ++ byte (128 + c mod 64).

Definition with_prefix (p : string) (r : option (string * string))
  : option (string * string) :=
  match r with
  | Some (t, rest) => Some (p ++ t, rest)
  | None => None
  end.

(** [parse_str]: the body of a string up to its closing quote, with its
    escapes decoded (a [\u] surrogate pair gives one code point); an
    unescaped control byte is an error. *)
Fixpoint parse_str (s : string) : option (string * string) :=
  match s with
  | EmptyString => None
  | String c r =>
    if Ascii.eqb c quote then Some (EmptyString, r)
    else if Ascii.eqb c backslash then
      match r with
      | EmptyString => None
      | String e r' =>
        if Ascii.eqb e quote then with_prefix (String quote EmptyString) (parse_str r')
        else if Ascii.eqb e backslash then
          with_prefix (String backslash EmptyString) (parse_str r')
        else if Ascii.eqb e "/" then with_prefix "/" (parse_str r')
        else if Ascii.eqb e "b" then with_prefix (String "008" EmptyString) (parse_str r')
        else if Ascii.eqb e "f" then with_prefix (String "012" EmptyString) (parse_str r')
        else if Ascii.eqb e "n" then with_prefix nl (parse_str r')
        else if Ascii.eqb e "r" then
          with_prefix (String carriage_return EmptyString) (parse_str r')
        else if Ascii.eqb e "t" then with_prefix (String "009" EmptyString) (parse_str r')
        else if Ascii.eqb e "u" then
          match r' with
          | String h1 (String h2 (String h3 (String h4 r''))) =>
            match hex4 h1 h2 h3 h4 with
            | None => None
            | Some cp =>
              if (55296 <=? cp)%N && (cp <=? 56319)%N then
                match r'' with
                | String b (String u (String l1 (String l2 (String l3 (String l4 r3))))) =>
                  if Ascii.eqb b backslash && Ascii.eqb u "u" then
                    match hex4 l1 l2 l3 l4 with
                    | Some lo =>
                      if (56320 <=? lo)%N && (lo <=? 57343)%N
                      then with_prefix
                             (utf8_encode_char
                                (65536 + (cp - 55296) * 1024 + (lo - 56320))%N)
                             (parse_str r3)
                      else None
                    | None => None
                    end
                  else None
                | _ => None
                end
              else if (56320 <=? cp)%N && (cp <=? 57343)%N then None
              else with_prefix (utf8_encode_char cp) (parse_str r'')
            end
          | _ => None
          end
        else None
      end
    else if (N_of_ascii c <? 32)%N then None
    else with_prefix (String c EmptyString) (parse_str r)
  end.

Definition digit_of (c : ascii) : option (Decimal.uint -> Decimal.uint) :=
  if Ascii.eqb c "0" then Some Decimal.D0 else if Ascii.eqb c "1" then Some Decimal.D1
  else if Ascii.eqb c "2" then Some Decimal.D2 else if Ascii.eqb c "3" then Some Decimal.D3
  else if Ascii.eqb c "4" then Some Decimal.D4 else if Ascii.eqb c "5" then Some Decimal.D5
  else if Ascii.eqb c "6" then Some Decimal.D6 else if Ascii.eqb c "7" then Some Decimal.D7
  else if Ascii.eqb c "8" then Some Decimal.D8 else if Ascii.eqb c "9" then Some Decimal.D9
  else None.

Definition is_digit (c : ascii) : bool :=
  match digit_of c with Some _ => true | None => false end.

(** The longest run of digits at the head of [s]. *)
Fixpoint scan_digits (s : string) : Decimal.uint * string :=
  match s with
  | EmptyString => (Decimal.Nil, EmptyString)
  | String c r =>
      match digit_of c with
      | Some d => let '(u, rest) := scan_digits r in (d u, rest)
      | None => (Decimal.Nil, s)
      end
  end.

(** The end of an integer: a fraction or an exponent would make a float. *)
Definition integer_end (n : N) (rest : string) : option (Value * string) :=
  match rest with
  | String c _ =>
      if Ascii.eqb c "." || Ascii.eqb c "e" || Ascii.eqb c "E" then None
      else if (n <? usize_modulus)%N then Some (JNumber n, rest) else None
  | EmptyString => if (n <? usize_modulus)%N then Some (JNumber n, rest) else None
  end.

(** [parse_integer]: a leading [0] stands alone. *)
Definition parse_number (s : string) : option (Value * string) :=
  match s with
  | EmptyString => None
  | String c r =>
      if Ascii.eqb c "0" then
        match r with
        | String c' _ => if is_digit c' then None else integer_end 0 r
        | EmptyString => integer_end 0 r
        end
      else if is_digit c then
        let '(u, rest) := scan_digits s in integer_end (N.of_uint u) rest
      else None
  end.

(** [parse_seq]: array entries after the opening bracket; [pv] reads one
    value, [fuel] bounds the number of entries. *)
Fixpoint parse_elements (pv : string -> option (Value * string)) (fuel : nat)
  (s : string) (acc : list Value) : option (Value * string) :=
  match fuel with
  | O => None
  | S fuel' =>
    match pv s with
    | None => None
    | Some (v, r) =>
      match skip_ws r with
      | String c r' =>
          if Ascii.eqb c "," then parse_elements pv fuel' r' (v :: acc)
          else if Ascii.eqb c "]" then Some (JArray (rev (v :: acc)), r')
          else None
      | EmptyString => None
      end
    end
  end.

(** [parse_map]: object entries after the opening brace, each inserted in
    the [Map] as it is read. *)
Fixpoint parse_members (pv : string -> option (Value * string)) (fuel : nat)
  (s : string) (m : list (string * Value)) : option (Value * string) :=
  match fuel with
  | O => None
  | S fuel' =>
    match skip_ws s with
    | String c r =>
      if Ascii.eqb c quote then
        match parse_str r with
        | None => None
        | Some (k, r1) =>
          match skip_ws r1 with
          | String c1 r2 =>
            if Ascii.eqb c1 ":" then
              match pv r2 with
              | None => None
              | Some (v, r3) =>
                match skip_ws r3 with
                | String c3 r4 =>
                    if Ascii.eqb c3 "," then parse_members pv fuel' r4 (map_insert k v m)
                    else if Ascii.eqb c3 "}" then Some (JObject (map_insert k v m), r4)
                    else None
                | EmptyString => None
                end
              end
            else None
          | EmptyString => None
          end
        end
      else None
    | EmptyString => None
    end
  end.

(** serde_json's recursion limit: [remaining_depth] starts at 128 and an
    array or object may only be entered while it stays above 0. *)
Definition recursion_limit : nat := 128.

(** [parse_value]; the number of entries of a container is bounded by the
    length of the text that follows its opening bracket. *)
Fixpoint parse_value (depth : nat) (s : string) {struct depth}
  : option (Value * string) :=
  match skip_ws s with
  | EmptyString => None
  | String c r =>
    if Ascii.eqb c "n" then
      match strip_prefix "ull" r with Some r' => Some (JNull, r') | None => None end
    else if Ascii.eqb c "t" then
      match strip_prefix "rue" r with Some r' => Some (JBool true, r') | None => None end
    else if Ascii.eqb c "f" then
      match strip_prefix "alse" r with Some r' => Some (JBool false, r') | None => None end
    else if Ascii.eqb c quote then
      match parse_str r with Some (t, r') => Some (JString t, r') | None => None end
    else if Ascii.eqb c "[" then
      match depth with
      | S (S _ as d) =>
        match skip_ws r with
        | String c' r' =>
            if Ascii.eqb c' "]" then Some (JArray [], r')
            else parse_elements (parse_value d) (String.length r) r []
        | EmptyString => None
        end
      | _ => None
      end
    else if Ascii.eqb c "{" then
      match depth with
      | S (S _ as d) =>
        match skip_ws r with
        | String c' r' =>
            if Ascii.eqb c' "}" then Some (JObject [], r')
            else parse_members (parse_value d) (String.length r) r []
        | EmptyString => None
        end
      | _ => None
      end
    else parse_number (skip_ws s)
  end.

(** [serde_json::from_str::<Value>]: one value, then only whitespace. *)
Definition from_str_value (s : string) : option Value :=
  match parse_value recursion_limit s with
  | Some (v, r) => match skip_ws r with EmptyString => Some v | _ => None end
  | None => None
  end.

(** [Map::get]. *)
Fixpoint map_get (k : string) (m : list (string * Value)) : option Value :=
  match m with
  | [] => None
  | (k', v) :: m' => if String.eqb k k' then Some v else map_get k m'
  end.

(** The derived [Deserialize] of [ProcessResult] from an object: [success]
    and [message] are required, a missing or [null] [data] is [None], other
    keys are ignored. *)
Definition process_result_from_value (v : Value) : option ProcessResult :=
  match v with
  | JObject m =>
    match map_get "success" m, map_get "message" m with
    | Some (JBool b), Some (JString msg) =>
      match map_get "data" m with
      | None | Some JNull => Some {| success := b; message := msg; data := None |}
      | Some d => Some {| success := b; message := msg; data := Some d |}
      end
    | _, _ => None
    end
  | _ => None
  end.

Fixpoint process_results_from_values (l : list Value) : option (list ProcessResult) :=
  match l with
  | [] => Some []
  | v :: l' =>
    match process_result_from_value v, process_results_from_values l' with
    | Some r, Some rs => Some (r :: rs)
    | _, _ => None
    end
  end.

Definition from_str_results (s : string) : option (list ProcessResult) :=
  match from_str_value s with
  | Some (JArray l) => process_results_from_values l
  | _ => None
  end.

(** ** [output_results] and [run] *)

(** The filesystem collaborator: [fs::read_to_string] and [fs::write]. *)
Record Filesystem : Type := mkFilesystem {
  read_to_string : string -> result string;
  write : string -> string -> result unit
}.

(** What a run leaves observable: its log records and the files it writes. *)
Inductive Event : Type :=
| Log (lvl : Level) (msg : string)
| WroteFile (path contents : string).

(** [output_results]: [to_string_pretty] cannot fail on these values (the
    [?] after it is never taken); a failed write panics in [expect].  The
    second component is the panic message, if any. *)
Definition output_results (fs : Filesystem) (output : option string)
  (results : list ProcessResult) : list Event * option string :=
  match output with
  | Some path =>
      let json := to_string_pretty results in
      match write fs path json with
      | Ok _ => ([Log Info ("Outputting results to file: " ++ path); WroteFile path json], None)
      | Err _ => ([Log Info ("Outputting results to file: " ++ path)],
                  Some "Failed to write output file")
      end
  | None => ([Log Info "No output file specified"], None)
  end.

(** How a run ends: [Ok(())], with the processor and the collected results
    it leaves behind, an [Err], or a panic. *)
Inductive Outcome : Type :=
| Finished (processor : TreasuryManagerProcessor) (results : list ProcessResult)
| Failed (e : Error)
| Panicked (msg : string).

(** [run]; the logger set-up is not modelled, [clock] gives the clock
    reading at each line. *)
Definition run (fs : Filesystem) (clock : nat -> string) (verbose : bool)
  (input output : option string) : list Event * Outcome :=
  let start := [Log Info "Starting TreasuryManager processing"] in
  let processor := new verbose in
  let '(read_log, input_data) :=
    match input with
    | Some path => ([Log Info ("Reading input from file: " ++ path)], read_to_string fs path)
    | None => ([Log Info "No input file specified"], Ok EmptyString)
    end in
  match input_data with
  | Err e => ((start ++ read_log)%list, Failed e)
  | Ok text =>
    let '(logs, processor', r) := process_input_data clock text processor in
    let proc_events := map (fun '(lvl, msg) => Log lvl msg) logs in
    match r with
    | Err e => ((start ++ read_log ++ proc_events)%list, Failed e)
    | Ok results =>
      let '(out_events, panic) := output_results fs output results in
      let events := (start ++ read_log ++ proc_events ++ out_events)%list in
      match panic with
      | Some msg => (events, Panicked msg)
      | None => (events, Finished processor' results)
      end
    end
  end.

(** ** Observations on records *)

Definition data_field (k : string) (r : ProcessResult) : option Value :=
  match data r with
  | Some (JObject m) => map_get k m
  | _ => None
  end.

Definition number_field (k : string) (r : ProcessResult) : option N :=
  match data_field k r with
  | Some (JNumber n) => Some n
  | _ => None
  end.

(** ** Properties *)

Section Processor.

(** The record [process] builds when the counter becomes [n]. *)
Definition expected_record (now line : string) (n : N) : ProcessResult :=
  {| success := true;
     message := "Successfully processed item #" ++ usize_to_string n;
     data := Some (JObject [("item_number", JNumber n);
                            ("length", JNumber (N.of_nat (str_len line)));
                            ("processed_at", JString now)]) |}.

Definition process_log (v : bool) (line : string) : list (Level * string) :=
  if v then [(Debug, "Processing data of length: "
                     ++ usize_to_string (N.of_nat (str_len line)))]
  else [].

Lemma process_eq (self : TreasuryManagerProcessor) (now line : string) :
  process now line self =
  (process_log (verbose self) line,
   {| verbose := verbose self; processed_count := usize_succ (processed_count self) |},
   Ok (expected_record now line (usize_succ (processed_count self)))).
Proof. destruct self as [[|] c]; reflexivity. Qed.

Lemma usize_succ_lt (n : N) : (usize_succ n < usize_modulus)%N.
Proof. unfold usize_succ, usize_modulus. apply N.mod_lt. discriminate. Qed.

Lemma usize_succ_small (n : N) :
  (n + 1 < usize_modulus)%N -> usize_succ n = (n + 1)%N.
Proof. intros H. unfold usize_succ. apply N.mod_small. exact H. Qed.

End Processor.

Section Pipeline.

Variable clock : nat -> string.

Fixpoint expected_records (i : nat) (c : N) (ls : list string) : list ProcessResult :=
  match ls with
  | [] => []
  | line :: ls' =>
      expected_record (clock i) line (usize_succ c)
      :: expected_records (S i) (usize_succ c) ls'
  end.

Lemma expected_record_item_number (now line : string) (n : N) :
  number_field "item_number" (expected_record now line n) = Some n.
Proof. reflexivity. Qed.

Lemma expected_record_length (now line : string) (n : N) :
  number_field "length" (expected_record now line n) = Some (N.of_nat (str_len line)).
Proof. reflexivity. Qed.

Fixpoint counter_after (c : N) (ls : list string) : N :=
  match ls with
  | [] => c
  | _ :: ls' => counter_after (usize_succ c) ls'
  end.

Lemma process_lines_eq (ls : list string) : forall i self,
  exists logs,
    process_lines clock i ls self =
    (logs, {| verbose := verbose self;
              processed_count := counter_after (processed_count self) ls |},
     Ok (expected_records i (processed_count self) ls)).
Proof.
  induction ls as [|line ls IH]; intros i self.
  - exists []. destruct self; reflexivity.
  - simpl. unfold bind at 1. rewrite process_eq.
    destruct (IH (S i) {| verbose := verbose self;
                          processed_count := usize_succ (processed_count self) |})
      as [logs Hrec].
    unfold bind. simpl in Hrec. rewrite Hrec.
    eexists. reflexivity.
Qed.

Lemma counter_after_small (ls : list string) : forall c,
  (c + N.of_nat (List.length ls) < usize_modulus)%N ->
  counter_after c ls = (c + N.of_nat (List.length ls))%N.
Proof.
  induction ls as [|line ls IH]; intros c H; simpl in *.
  - lia.
  - rewrite usize_succ_small by lia. rewrite IH by lia. lia.
Qed.

Lemma expected_item_numbers (ls : list string) : forall i c,
  (c + N.of_nat (List.length ls) < usize_modulus)%N ->
  map (number_field "item_number") (expected_records i c ls)
  = map (fun j => Some (c + N.of_nat j)%N) (seq 1 (List.length ls)).
Proof.
  induction ls as [|line ls IH]; intros i c H; simpl in *.
  - reflexivity.
  - rewrite expected_record_item_number, usize_succ_small by lia.
    rewrite IH by lia. f_equal.
    rewrite <- (seq_shift (List.length ls) 1), map_map.
    apply map_ext. intros j. f_equal. lia.
Qed.

Lemma expected_lengths (ls : list string) : forall i c,
  map (number_field "length") (expected_records i c ls)
  = map (fun line => Some (N.of_nat (str_len line))) ls.
Proof.
  induction ls as [|line ls IH]; intros i c; simpl.
  - reflexivity.
  - rewrite IH, expected_record_length. reflexivity.
Qed.

Lemma expected_records_length (ls : list string) : forall i c,
  List.length (expected_records i c ls) = List.length ls.
Proof. induction ls; intros; simpl; auto. Qed.

End Pipeline.

Section Lines.

Lemma string_length_append (s1 s2 : string) :
  String.length (s1 ++ s2) = String.length s1 + String.length s2.
Proof. induction s1; simpl; auto. Qed.

Lemma string_append_assoc (s1 s2 s3 : string) :
  (s1 ++ s2) ++ s3 = s1 ++ (s2 ++ s3).
Proof. induction s1; simpl; congruence. Qed.

Lemma string_append_nil (s : string) : s ++ EmptyString = s.
Proof. induction s; simpl; congruence. Qed.

Lemma split_inclusive_nl_count (s : string) : forall cur,
  List.length (split_inclusive_nl cur s)
  <= String.length s + match cur with EmptyString => 0 | _ => 1 end.
Proof.
  induction s as [|a s IH]; intros cur; simpl.
  - destruct cur; simpl; lia.
  - destruct (Ascii.eqb a newline); simpl.
    + specialize (IH EmptyString). simpl in IH. destruct cur; lia.
    + specialize (IH (cur ++ String a EmptyString)). destruct cur; simpl in *; lia.
Qed.

Lemma lines_count (s : string) : List.length (lines s) <= str_len s.
Proof.
  unfold lines, str_len. rewrite length_map.
  pose proof (split_inclusive_nl_count s EmptyString) as H. simpl in H. lia.
Qed.

Lemma split_inclusive_nl_piece (s : string) : forall cur piece,
  In piece (split_inclusive_nl cur s) ->
  String.length piece <= String.length cur + String.length s.
Proof.
  induction s as [|a s IH]; intros cur piece Hin; simpl in *.
  - destruct cur; simpl in Hin; [contradiction|].
    destruct Hin as [<-|[]]. simpl. lia.
  - destruct (Ascii.eqb a newline); simpl in Hin.
    + destruct Hin as [<-|Hin].
      * rewrite string_length_append. simpl. lia.
      * apply IH in Hin. simpl in Hin. lia.
    + apply IH in Hin. rewrite string_length_append in Hin. simpl in Hin. lia.
Qed.

Lemma substring_length (s : string) : forall n m,
  String.length (String.substring n m s) <= String.length s.
Proof.
  induction s as [|a s IH]; intros n m; destruct n as [|n]; destruct m as [|m];
    simpl; try lia.
  all: first [ specialize (IH 0 m); lia | specialize (IH n 0); lia
             | specialize (IH n (S m)); lia ].
Qed.

Lemma strip_suffix_length (c : ascii) (s t : string) :
  strip_suffix c s = Some t -> String.length t <= String.length s.
Proof.
  unfold strip_suffix. destruct (String.length s) eqn:E; [discriminate|].
  destruct (String.get n s); [|discriminate].
  destruct (Ascii.eqb a c); [|discriminate].
  intros [=<-]. rewrite <- E. apply substring_length.
Qed.

Lemma strip_line_ending_length (line : string) :
  String.length (strip_line_ending line) <= String.length line.
Proof.
  unfold strip_line_ending.
  destruct (strip_suffix newline line) as [l'|] eqn:E1; [|lia].
  apply strip_suffix_length in E1.
  destruct (strip_suffix carriage_return l') as [l''|] eqn:E2; [|lia].
  apply strip_suffix_length in E2. lia.
Qed.

Lemma lines_length (s line : string) :
  In line (lines s) -> str_len line <= str_len s.
Proof.
  unfold lines, str_len. intros Hin. apply in_map_iff in Hin.
  destruct Hin as [piece [<- Hin]].
  apply split_inclusive_nl_piece in Hin. simpl in Hin.
  pose proof (strip_line_ending_length piece). lia.
Qed.

End Lines.

Definition get_stats_m : M Value :=
  let* self := get in ret (get_stats self).

(** [get_stats] called [n] times in a row. *)
Fixpoint get_stats_times (n : nat) : M (list Value) :=
  match n with
  | O => ret []
  | S n' =>
      let* stats := get_stats_m in
      let* rest := get_stats_times n' in
      ret (stats :: rest)
  end.

Section LineSplitting.

Lemma split_inclusive_nl_app (s : string) : forall cur r,
  split_inclusive_nl cur (s ++ String newline r)
  = (split_inclusive_nl cur (s ++ nl) ++ split_inclusive_nl EmptyString r)%list.
Proof.
  induction s as [|a s IH]; intros cur r; simpl.
  - reflexivity.
  - destruct (Ascii.eqb a newline); simpl; rewrite IH; reflexivity.
Qed.

Lemma split_inclusive_nl_last (t : string) : forall cur,
  (forall k, String.get k t <> Some newline) ->
  cur ++ t <> EmptyString ->
  split_inclusive_nl cur t = [cur ++ t].
Proof.
  induction t as [|a t IH]; intros cur Hnl Hne; simpl.
  - rewrite string_append_nil in *. destruct cur; [congruence|reflexivity].
  - assert (Ha : Ascii.eqb a newline = false).
    { apply Ascii.eqb_neq. intros ->. apply (Hnl 0). reflexivity. }
    rewrite Ha. rewrite IH.
    + rewrite string_append_assoc. reflexivity.
    + intros k. apply (Hnl (S k)).
    + rewrite string_append_assoc. simpl. destruct cur; discriminate.
Qed.

Lemma strip_line_ending_no_newline (t : string) :
  (forall k, String.get k t <> Some newline) -> strip_line_ending t = t.
Proof.
  intros Hnl. unfold strip_line_ending, strip_suffix.
  destruct (String.length t) as [|k]; [reflexivity|].
  destruct (String.get k t) as [c|] eqn:E; [|reflexivity].
  destruct (Ascii.eqb c newline) eqn:Ec; [|reflexivity].
  apply Ascii.eqb_eq in Ec. subst c. exfalso. exact (Hnl k E).
Qed.

End LineSplitting.

Section Utf8.

(** A line of characters (Unicode scalar values) as the UTF-8 bytes of a
    [&str]. *)
Fixpoint utf8_encode (cs : list N) : string :=
  match cs with
  | [] => EmptyString
  | c :: cs' => utf8_encode_char c ++ utf8_encode cs'
  end.

Lemma utf8_encode_char_length (c : N) :
  1 <= str_len (utf8_encode_char c) /\
  ((128 <= c)%N -> 2 <= str_len (utf8_encode_char c)).
Proof.
  unfold str_len, utf8_encode_char.
  destruct (c <? 128)%N eqn:E1; [apply N.ltb_lt in E1; simpl; split; [lia|intros; lia]|].
  destruct (c <? 2048)%N; [simpl; lia|].
  destruct (c <? 65536)%N; simpl; lia.
Qed.

Lemma utf8_encode_length (cs : list N) :
  List.length cs <= str_len (utf8_encode cs) /\
  (Exists (fun c => (128 <= c)%N) cs -> List.length cs < str_len (utf8_encode cs)).
Proof.
  induction cs as [|c cs [IH1 IH2]]; simpl.
  - split; [lia|]. intros H. inversion H.
  - unfold str_len in *. rewrite string_length_append.
    destruct (utf8_encode_char_length c) as [H1 H2]. unfold str_len in H1, H2.
    split; [lia|]. intros H. inversion H; subst.
    + specialize (H2 H3). lia.
    + specialize (IH2 H3). lia.
Qed.

End Utf8.

(** ** Reading the output back

    [serde_json::from_str] applied to what [to_string_pretty] writes. *)

Lemma parse_str_escape_char (c : ascii) (X : string) :
  parse_str (escape_char c ++ X) = with_prefix (String c EmptyString) (parse_str X).
Proof. destruct c as [[] [] [] [] [] [] [] []]; reflexivity. Qed.

Lemma parse_str_escape (s rest : string) :
  parse_str (escape_str s ++ String quote rest) = Some (s, rest).
Proof.
  induction s as [|c s IH]; [reflexivity|].
  cbn [escape_str]. rewrite string_append_assoc, parse_str_escape_char, IH.
  reflexivity.
Qed.

Lemma nzhead_head (d : Decimal.uint) :
  match Decimal.nzhead d with Decimal.D0 _ => False | _ => True end.
Proof. induction d; simpl; auto. Qed.

Lemma to_uint_shape (n : N) :
  (n = 0%N /\ N.to_uint n = Decimal.D0 Decimal.Nil) \/
  match N.to_uint n with Decimal.Nil | Decimal.D0 _ => False | _ => True end.
Proof.
  assert (E : N.to_uint n = Decimal.unorm (N.to_uint n)).
  { rewrite <- DecimalN.Unsigned.to_of, DecimalN.Unsigned.of_to. reflexivity. }
  unfold Decimal.unorm in E.
  pose proof (nzhead_head (N.to_uint n)) as Hh.
  destruct (Decimal.nzhead (N.to_uint n)) eqn:Ez;
    [left; split; [|exact E]; rewrite <- (DecimalN.Unsigned.of_to n), E; reflexivity
    |contradiction|..].
  all: right; rewrite E; exact I.
Qed.

(** What follows a value inside a pretty-printed container: a comma or a
    line break. *)
Definition cont_ok (r : string) : Prop :=
  exists r', r = String "," r' \/ r = String newline r'.

Lemma scan_digits_uint (u : Decimal.uint) (r : string) :
  (forall c r', r = String c r' -> is_digit c = false) ->
  scan_digits (NilEmpty.string_of_uint u ++ r) = (u, r).
Proof.
  intros Hr. induction u; simpl; try (rewrite IHu; reflexivity).
  destruct r as [|c r']; [reflexivity|].
  specialize (Hr c r' eq_refl). unfold is_digit in Hr.
  simpl. destruct (digit_of c); [discriminate|reflexivity].
Qed.

Lemma parse_value_digit (d : nat) (c : ascii) (t : string) :
  is_digit c = true -> parse_value d (String c t) = parse_number (String c t).
Proof.
  destruct c as [[] [] [] [] [] [] [] []]; try discriminate; destruct d; reflexivity.
Qed.

Lemma parse_number_nonzero (c : ascii) (t : string) :
  Ascii.eqb c "0" = false -> is_digit c = true ->
  parse_number (String c t)
  = let '(u, rest) := scan_digits (String c t) in integer_end (N.of_uint u) rest.
Proof. intros H0 H1. unfold parse_number. rewrite H0, H1. reflexivity. Qed.

Lemma cont_ok_not_digit (r : string) :
  cont_ok r -> forall c r', r = String c r' -> is_digit c = false.
Proof. intros [r0 [-> | ->]] c r' [= <- _]; reflexivity. Qed.

Lemma integer_end_cont (n : N) (r : string) :
  (n < usize_modulus)%N -> cont_ok r -> integer_end n r = Some (JNumber n, r).
Proof.
  intros Hn [r0 [-> | ->]]; unfold integer_end; simpl;
    apply N.ltb_lt in Hn; rewrite Hn; reflexivity.
Qed.

Lemma parse_value_number (d : nat) (n : N) (r : string) :
  (n < usize_modulus)%N -> cont_ok r ->
  parse_value d (usize_to_string n ++ r) = Some (JNumber n, r).
Proof.
  intros Hn Hr. unfold usize_to_string.
  destruct (to_uint_shape n) as [[-> ->] | Hh].
  - destruct Hr as [r0 [-> | ->]]; destruct d; reflexivity.
  - assert (Hs : exists c t, NilEmpty.string_of_uint (N.to_uint n) ++ r = String c t /\
                   Ascii.eqb c "0" = false /\ is_digit c = true).
    { destruct (N.to_uint n); try contradiction;
        (eexists _, _; split; [reflexivity|split; reflexivity]). }
    destruct Hs as [c [t [E [H0 H1]]]].
    rewrite E, parse_value_digit by exact H1.
    rewrite parse_number_nonzero by assumption. rewrite <- E.
    rewrite scan_digits_uint by (apply cont_ok_not_digit; exact Hr).
    rewrite DecimalN.Unsigned.of_to. apply integer_end_cont; assumption.
Qed.

Lemma parse_value_quote (d : nat) (t : string) :
  parse_value d (String quote t)
  = match parse_str t with Some (s, r') => Some (JString s, r') | None => None end.
Proof. destruct d; reflexivity. Qed.

Lemma parse_value_string (d : nat) (s r : string) :
  parse_value d (format_string s ++ r) = Some (JString s, r).
Proof.
  unfold format_string. cbn [append]. rewrite parse_value_quote.
  rewrite string_append_assoc. cbn [append]. rewrite parse_str_escape. reflexivity.
Qed.

Lemma parse_value_bool (d : nat) (b : bool) (r : string) :
  parse_value d (to_pretty 0 (JBool b) ++ r) = Some (JBool b, r).
Proof. destruct b, d; reflexivity. Qed.

Lemma to_pretty_scalar (lvl lvl' : nat) (v : Value) :
  match v with JArray _ | JObject _ => False | _ => True end ->
  to_pretty lvl v = to_pretty lvl' v.
Proof. destruct v; simpl; tauto. Qed.

Lemma skip_ws_indent (n : nat) (X : string) : skip_ws (indent n ++ X) = skip_ws X.
Proof. induction n as [|n IH]; simpl; auto. Qed.

Lemma skip_ws_nl_indent (n : nat) (X : string) : skip_ws (nl ++ indent n ++ X) = skip_ws X.
Proof. simpl. apply skip_ws_indent. Qed.

Lemma parse_value_skip (d : nat) (s s' : string) :
  skip_ws s = skip_ws s' -> parse_value d s = parse_value d s'.
Proof. intros H. destruct d; simpl; rewrite H; reflexivity. Qed.

Lemma parse_members_skip pv fuel (s s' : string) acc :
  skip_ws s = skip_ws s' -> parse_members pv fuel s acc = parse_members pv fuel s' acc.
Proof. intros H. destruct fuel; simpl; [reflexivity|]. rewrite H. reflexivity. Qed.

Lemma pretty_members_false pp ind kv m :
  pretty_members pp ind false (kv :: m) = String "," (pretty_members pp ind true (kv :: m)).
Proof. destruct kv; reflexivity. Qed.

Lemma parse_members_pretty (d lvl : nat) (f : Value -> Value) (r : string)
  (m : list (string * Value)) :
  forall acc fuel,
  m <> [] ->
  (forall k v, In (k, v) m -> forall R, cont_ok R ->
     parse_value d (to_pretty (S lvl) v ++ R) = Some (f v, R)) ->
  List.length m <= fuel ->
  parse_members (parse_value d) fuel
    (pretty_members (to_pretty (S lvl)) (indent (S lvl)) true m
     ++ nl ++ indent lvl ++ "}" ++ r) acc
  = Some (JObject (fold_left (fun acc kv => map_insert (fst kv) (f (snd kv)) acc) m acc), r).
Proof.
  induction m as [|[k v] m IH]; intros acc fuel Hne Hv Hf; [congruence|].
  destruct fuel as [|fuel]; [simpl in Hf; lia|].
  remember (pretty_members (to_pretty (S lvl)) (indent (S lvl)) false m
            ++ nl ++ indent lvl ++ "}" ++ r) as R eqn:HR.
  assert (Htext : pretty_members (to_pretty (S lvl)) (indent (S lvl)) true ((k, v) :: m)
                  ++ nl ++ indent lvl ++ "}" ++ r
                  = nl ++ indent (S lvl) ++ format_string k ++ ": "
                    ++ to_pretty (S lvl) v ++ R).
  { subst R. cbn [pretty_members]. rewrite !string_append_assoc. reflexivity. }
  rewrite Htext. clear Htext.
  rewrite (parse_members_skip _ _ _ (format_string k ++ ": " ++ to_pretty (S lvl) v ++ R))
    by (simpl; rewrite skip_ws_indent; reflexivity).
  unfold format_string. cbn [append]. rewrite string_append_assoc. cbn [append].
  simpl. rewrite parse_str_escape. simpl.
  rewrite (parse_value_skip d _ (to_pretty (S lvl) v ++ R)) by reflexivity.
  destruct m as [|kv2 m'].
  - rewrite (Hv k v (or_introl eq_refl)) by (subst R; simpl; eexists; right; reflexivity).
    subst R. simpl. rewrite skip_ws_indent. reflexivity.
  - rewrite pretty_members_false in HR.
    rewrite (Hv k v (or_introl eq_refl)) by (subst R; simpl; eexists; left; reflexivity).
    subst R. simpl. rewrite IH; [reflexivity|congruence| |simpl in *; lia].
    intros k' v' Hin. apply (Hv k' v'). right. exact Hin.
Qed.

Lemma pretty_elements_false pp ind v l :
  pretty_elements pp ind false (v :: l) = String "," (pretty_elements pp ind true (v :: l)).
Proof. reflexivity. Qed.

Lemma parse_elements_pretty (d lvl : nat) (f : Value -> Value) (r : string)
  (l : list Value) :
  forall acc fuel,
  l <> [] ->
  (forall v, In v l -> forall R, cont_ok R ->
     parse_value d (to_pretty (S lvl) v ++ R) = Some (f v, R)) ->
  List.length l <= fuel ->
  parse_elements (parse_value d) fuel
    (pretty_elements (to_pretty (S lvl)) (indent (S lvl)) true l
     ++ nl ++ indent lvl ++ "]" ++ r) acc
  = Some (JArray (rev acc ++ map f l), r).
Proof.
  induction l as [|v l IH]; intros acc fuel Hne Hv Hf; [congruence|].
  destruct fuel as [|fuel]; [simpl in Hf; lia|].
  remember (pretty_elements (to_pretty (S lvl)) (indent (S lvl)) false l
            ++ nl ++ indent lvl ++ "]" ++ r) as R eqn:HR.
  assert (Htext : pretty_elements (to_pretty (S lvl)) (indent (S lvl)) true (v :: l)
                  ++ nl ++ indent lvl ++ "]" ++ r
                  = nl ++ indent (S lvl) ++ to_pretty (S lvl) v ++ R).
  { subst R. cbn [pretty_elements]. rewrite !string_append_assoc. reflexivity. }
  rewrite Htext. clear Htext. cbn [parse_elements].
  rewrite (parse_value_skip d _ (to_pretty (S lvl) v ++ R))
    by (simpl; rewrite skip_ws_indent; reflexivity).
  destruct l as [|v2 l'].
  - rewrite (Hv v (or_introl eq_refl)) by (subst R; simpl; eexists; right; reflexivity).
    subst R. simpl. rewrite skip_ws_indent. reflexivity.
  - rewrite pretty_elements_false in HR.
    rewrite (Hv v (or_introl eq_refl)) by (subst R; simpl; eexists; left; reflexivity).
    subst R. simpl. rewrite IH; [|congruence| |simpl in *; lia].
    + simpl. rewrite <- app_assoc. reflexivity.
    + intros v' Hin. apply (Hv v'). right. exact Hin.
Qed.

Lemma pretty_members_fuel pp ind (m : list (string * Value)) : forall first,
  List.length m <= String.length (pretty_members pp ind first m).
Proof.
  induction m as [|[k v] m IH]; intros first; [simpl; lia|].
  cbn [pretty_members]. specialize (IH false).
  destruct first; simpl; rewrite !string_length_append; simpl;
    rewrite !string_length_append; simpl; rewrite !string_length_append; lia.
Qed.

Lemma pretty_elements_fuel pp ind (l : list Value) : forall first,
  List.length l <= String.length (pretty_elements pp ind first l).
Proof.
  induction l as [|v l IH]; intros first; [simpl; lia|].
  cbn [pretty_elements]. specialize (IH false).
  destruct first; simpl; rewrite !string_length_append; lia.
Qed.

Lemma to_pretty_head lvl v R : exists c Y,
  to_pretty lvl v ++ R = String c Y /\ is_ws c = false /\ Ascii.eqb c "]" = false.
Proof.
  destruct v as [|b|n|s|l|m].
  - do 2 eexists; split; [reflexivity|split; reflexivity].
  - destruct b; do 2 eexists; split; [reflexivity|split; reflexivity|reflexivity|split; reflexivity].
  - unfold to_pretty, usize_to_string.
    destruct (to_uint_shape n) as [[_ H]|H]; [rewrite H|destruct (N.to_uint n); try contradiction];
      do 2 eexists; (split; [reflexivity|split; reflexivity]).
  - unfold to_pretty, format_string. do 2 eexists; split; [reflexivity|split; reflexivity].
  - destruct l; do 2 eexists; (split; [reflexivity|split; reflexivity]).
  - destruct m as [|[]]; do 2 eexists; (split; [reflexivity|split; reflexivity]).
Qed.

Lemma parse_value_brace d X : parse_value (S (S d)) (String "{" X) =
  match skip_ws X with
  | String c' r' =>
      if Ascii.eqb c' "}" then Some (JObject [], r')
      else parse_members (parse_value (S d)) (String.length X) X []
  | EmptyString => None
  end.
Proof. reflexivity. Qed.

Lemma parse_value_bracket d X : parse_value (S (S d)) (String "[" X) =
  match skip_ws X with
  | String c' r' =>
      if Ascii.eqb c' "]" then Some (JArray [], r')
      else parse_elements (parse_value (S d)) (String.length X) X []
  | EmptyString => None
  end.
Proof. reflexivity. Qed.

Lemma parse_value_object d lvl (f : Value -> Value) r m :
  m <> [] ->
  (forall k v, In (k, v) m -> forall R, cont_ok R ->
     parse_value (S d) (to_pretty (S lvl) v ++ R) = Some (f v, R)) ->
  parse_value (S (S d)) (to_pretty lvl (JObject m) ++ r)
  = Some (JObject (fold_left (fun acc kv => map_insert (fst kv) (f (snd kv)) acc) m []), r).
Proof.
  intros Hne Hv. destruct m as [|[k v] m']; [congruence|].
  set (X := pretty_members (to_pretty (S lvl)) (indent (S lvl)) true ((k, v) :: m')
            ++ nl ++ indent lvl ++ "}" ++ r).
  assert (Htext : to_pretty lvl (JObject ((k, v) :: m')) ++ r = String "{" X).
  { subst X. cbn [to_pretty]. rewrite !string_append_assoc. reflexivity. }
  rewrite Htext, parse_value_brace.
  assert (Hs : exists Y, skip_ws X = String quote Y).
  { subst X. cbn [pretty_members]. rewrite !string_append_assoc. simpl.
    rewrite skip_ws_indent. unfold format_string. simpl. eexists. reflexivity. }
  destruct Hs as [Y HY]. rewrite HY. cbv iota.
  change (Ascii.eqb quote "}") with false. cbv iota.
  subst X. apply parse_members_pretty; [exact Hne|exact Hv|].
  rewrite string_length_append. pose proof (pretty_members_fuel (to_pretty (S lvl))
    (indent (S lvl)) ((k, v) :: m') true). lia.
Qed.

Lemma parse_value_array d lvl (f : Value -> Value) r l :
  l <> [] ->
  (forall v, In v l -> forall R, cont_ok R ->
     parse_value (S d) (to_pretty (S lvl) v ++ R) = Some (f v, R)) ->
  parse_value (S (S d)) (to_pretty lvl (JArray l) ++ r) = Some (JArray (map f l), r).
Proof.
  intros Hne Hv. destruct l as [|v l']; [congruence|].
  set (X := pretty_elements (to_pretty (S lvl)) (indent (S lvl)) true (v :: l')
            ++ nl ++ indent lvl ++ "]" ++ r).
  assert (Htext : to_pretty lvl (JArray (v :: l')) ++ r = String "[" X).
  { subst X. cbn [to_pretty]. rewrite !string_append_assoc. reflexivity. }
  rewrite Htext, parse_value_bracket.
  destruct (to_pretty_head (S lvl) v (pretty_elements (to_pretty (S lvl)) (indent (S lvl)) false l'
            ++ nl ++ indent lvl ++ "]" ++ r)) as (c & Y & HY & Hws & Hc).
  assert (Hs : skip_ws X = String c Y).
  { transitivity (skip_ws (String c Y)); [|simpl; rewrite Hws; reflexivity].
    rewrite <- HY. subst X. cbn [pretty_elements]. rewrite !string_append_assoc.
    apply skip_ws_nl_indent. }
  rewrite Hs, Hc.
  subst X. rewrite (parse_elements_pretty (S d) lvl f r (v :: l') [] _ Hne Hv); [reflexivity|].
  rewrite string_length_append. pose proof (pretty_elements_fuel (to_pretty (S lvl))
    (indent (S lvl)) (v :: l') true). lia.
Qed.

(** An object as it comes back from the parser: its entries re-inserted in
    the [Map] one by one. *)
Definition reparse (v : Value) : Value :=
  match v with
  | JObject m => JObject (fold_left (fun acc kv => map_insert (fst kv) (snd kv) acc) m [])
  | _ => v
  end.

Lemma parse_value_data d lvl now len n R :
  (n < usize_modulus)%N -> (len < usize_modulus)%N -> cont_ok R ->
  parse_value (S (S d))
    (to_pretty lvl (JObject [("item_number", JNumber n); ("length", JNumber len);
                             ("processed_at", JString now)]) ++ R)
  = Some (JObject [("item_number", JNumber n); ("length", JNumber len);
                   ("processed_at", JString now)], R).
Proof.
  intros Hn Hl HR. rewrite (parse_value_object d lvl (fun v => v)); [reflexivity|discriminate|].
  intros k v Hin R' HR'. simpl in Hin.
  destruct Hin as [E|[E|[E|[]]]]; injection E; intros; subst.
  - exact (parse_value_number _ _ _ Hn HR').
  - exact (parse_value_number _ _ _ Hl HR').
  - exact (parse_value_string _ _ _).
Qed.

Lemma parse_value_result d lvl now line n R :
  (n < usize_modulus)%N -> (N.of_nat (str_len line) < usize_modulus)%N -> cont_ok R ->
  parse_value (S (S (S (S d))))
    (to_pretty lvl (process_result_to_value (expected_record now line n)) ++ R)
  = Some (reparse (process_result_to_value (expected_record now line n)), R).
Proof.
  intros Hn Hl HR. unfold process_result_to_value, expected_record. cbn [success message data].
  rewrite (parse_value_object (S (S d)) lvl (fun v => v)); [reflexivity|discriminate|].
  intros k v Hin R' HR'. simpl in Hin.
  destruct Hin as [E|[E|[E|[]]]]; injection E; intros; subst.
  - exact (parse_value_bool _ true R').
  - exact (parse_value_string _ _ _).
  - exact (parse_value_data (S d) (S lvl) now _ n R' Hn Hl HR').
Qed.

Lemma from_value_result now line n :
  process_result_from_value (reparse (process_result_to_value (expected_record now line n)))
  = Some (expected_record now line n).
Proof. reflexivity. Qed.

Section Roundtrip.

Variable clock : nat -> string.

Lemma in_expected_records (ls : list string) : forall i c r,
  In r (expected_records clock i c ls) ->
  exists now line n, r = expected_record now line n /\ In line ls /\ (n < usize_modulus)%N.
Proof.
  induction ls as [|line ls IH]; intros i c r Hin; simpl in Hin; [contradiction|].
  destruct Hin as [<-|Hin].
  - exists (clock i), line, (usize_succ c). split; [reflexivity|].
    split; [left; reflexivity|apply usize_succ_lt].
  - destruct (IH _ _ _ Hin) as (now & l & n & -> & Hl & Hn).
    exists now, l, n. split; [reflexivity|]. split; [right; exact Hl|exact Hn].
Qed.

Lemma results_from_expected (ls : list string) : forall i c,
  process_results_from_values
    (map reparse (map process_result_to_value (expected_records clock i c ls)))
  = Some (expected_records clock i c ls).
Proof.
  induction ls as [|line ls IH]; intros i c; [reflexivity|].
  cbn [expected_records map process_results_from_values].
  rewrite from_value_result, IH. reflexivity.
Qed.

Lemma expected_records_roundtrip (ls : list string) (i : nat) (c : N) :
  (forall line, In line ls -> (N.of_nat (str_len line) < usize_modulus)%N) ->
  from_str_results (to_string_pretty (expected_records clock i c ls))
  = Some (expected_records clock i c ls).
Proof.
  intros Hls. destruct ls as [|line0 ls0] eqn:Els; [reflexivity|]. rewrite <- Els.
  unfold from_str_results, from_str_value, to_string_pretty.
  rewrite <- (string_append_nil (to_pretty 0 _)).
  change recursion_limit with (S (S 126)).
  rewrite (parse_value_array 126 0 reparse).
  - cbn [skip_ws]. rewrite map_map. rewrite <- (map_map process_result_to_value reparse).
    apply results_from_expected.
  - subst ls. simpl. discriminate.
  - intros v Hin R HR. apply in_map_iff in Hin. destruct Hin as (r & <- & Hin).
    destruct (in_expected_records _ _ _ _ Hin) as (now & line & n & -> & Hl & Hn).
    apply (parse_value_result 123 1 now line n R Hn); [|exact HR].
    apply Hls. rewrite <- Els. exact Hl.
Qed.

End Roundtrip.

(** ** Runs, lines and output: auxiliary facts *)

Section Runs.

Variable clock : nat -> string.

Lemma process_lines_full (ls : list string) : forall i self,
  process_lines clock i ls self =
  (flat_map (process_log (verbose self)) ls,
   {| verbose := verbose self; processed_count := counter_after (processed_count self) ls |},
   Ok (expected_records clock i (processed_count self) ls)).
Proof.
  induction ls as [|line ls IH]; intros i self.
  - destruct self; reflexivity.
  - simpl. unfold bind at 1. rewrite process_eq.
    unfold bind. rewrite IH. simpl. rewrite app_nil_r. reflexivity.
Qed.

(** The processor's log records as events of a run. *)
Definition log_events (logs : list (Level * string)) : list Event :=
  map (fun '(lvl, msg) => Log lvl msg) logs.

Lemma run_read_ok (fs : Filesystem) (v : bool) (input output : option string)
  (text : string) (read_log : list Event) :
  match input with
  | Some path => read_log = [Log Info ("Reading input from file: " ++ path)]
                 /\ read_to_string fs path = Ok text
  | None => read_log = [Log Info "No input file specified"] /\ text = EmptyString
  end ->
  run fs clock v input output =
  let results := expected_records clock 0 0 (lines text) in
  let '(out_events, panic) := output_results fs output results in
  let events := ([Log Info "Starting TreasuryManager processing"] ++ read_log
                 ++ log_events (flat_map (process_log v) (lines text)) ++ out_events)%list in
  match panic with
  | Some msg => (events, Panicked msg)
  | None => (events, Finished {| verbose := v;
                                 processed_count := counter_after 0 (lines text) |} results)
  end.
Proof.
  intros H. unfold run.
  destruct input as [path|]; destruct H as [-> H]; [rewrite H|subst text];
    unfold process_input_data; rewrite process_lines_full; reflexivity.
Qed.

End Runs.

(** Whether an event is a file write. *)
Definition is_write (e : Event) : bool :=
  match e with WroteFile _ _ => true | Log _ _ => false end.

(** The debug records [process] logs for the lines [ls], in order: one per
    line when [verbose], none otherwise. *)
Definition debug_events (v : bool) (ls : list string) : list Event :=
  map (fun line => Log Debug ("Processing data of length: "
                              ++ usize_to_string (N.of_nat (str_len line))))
      (if v then ls else []).

Lemma log_events_process_log (v : bool) (ls : list string) :
  log_events (flat_map (process_log v) ls) = debug_events v ls.
Proof. destruct v; induction ls as [|l ls IH]; simpl; auto. rewrite IH. reflexivity. Qed.

Lemma log_events_no_write (logs : list (Level * string)) :
  filter is_write (log_events logs) = [].
Proof. induction logs as [|[lvl msg] logs IH]; simpl; auto. Qed.

Lemma in_filter_write (l : list Event) (p c : string) :
  In (WroteFile p c) l -> In (WroteFile p c) (filter is_write l).
Proof. intros H. apply filter_In. split; [exact H|reflexivity]. Qed.

Lemma debug_events_false (ls : list string) : debug_events false ls = [].
Proof. reflexivity. Qed.

Lemma run_shape (fs : Filesystem) (clock : nat -> string) (v : bool)
  (input output : option string) :
  (exists path e, input = Some path /\ read_to_string fs path = Err e /\
     run fs clock v input output
     = ([Log Info "Starting TreasuryManager processing";
         Log Info ("Reading input from file: " ++ path)], Failed e)) \/
  (exists text read_log,
     (exists m, read_log = [Log Info m]) /\
     run fs clock v input output =
     let results := expected_records clock 0 0 (lines text) in
     let '(out_events, panic) := output_results fs output results in
     let events := ([Log Info "Starting TreasuryManager processing"] ++ read_log
                    ++ log_events (flat_map (process_log v) (lines text)) ++ out_events)%list in
     match panic with
     | Some msg => (events, Panicked msg)
     | None => (events, Finished {| verbose := v;
                                    processed_count := counter_after 0 (lines text) |} results)
     end).
Proof.
  destruct input as [path|].
  - destruct (read_to_string fs path) as [text|e] eqn:Hr.
    + right. exists text, [Log Info ("Reading input from file: " ++ path)].
      split; [eexists; reflexivity|]. apply run_read_ok. split; [reflexivity|exact Hr].
    + left. exists path, e. split; [reflexivity|]. split; [exact Hr|].
      unfold run. rewrite Hr. reflexivity.
  - right. exists EmptyString, [Log Info "No input file specified"].
    split; [eexists; reflexivity|]. apply run_read_ok. split; reflexivity.
Qed.

(** The number of ['\n'] bytes of a text. *)
Fixpoint count_newlines (s : string) : nat :=
  match s with
  | EmptyString => 0
  | String c s' => (if Ascii.eqb c newline then 1 else 0) + count_newlines s'
  end.

(** The last byte of a text, if any. *)
Fixpoint last_byte (s : string) : option ascii :=
  match s with
  | EmptyString => None
  | String c EmptyString => Some c
  | String _ s' => last_byte s'
  end.

Section LineFacts.

Lemma lines_app (s t : string) :
  lines (s ++ String newline t) = (lines (s ++ nl) ++ lines t)%list.
Proof. unfold lines. rewrite split_inclusive_nl_app, map_app. reflexivity. Qed.

Lemma count_newlines_app (x y : string) :
  count_newlines (x ++ y) = count_newlines x + count_newlines y.
Proof. induction x as [|c x IH]; simpl; [reflexivity|]. rewrite IH. lia. Qed.

Lemma string_snoc (s : string) :
  s = EmptyString \/ exists init x, s = init ++ String x EmptyString.
Proof.
  induction s as [|c s IH]; [left; reflexivity|right].
  destruct IH as [->|(init & x & ->)].
  - exists EmptyString, c. reflexivity.
  - exists (String c init), x. reflexivity.
Qed.

Lemma get_snoc (c : ascii) (t : string) :
  String.get (String.length t) (t ++ String c EmptyString) = Some c.
Proof. induction t as [|a t IH]; simpl; auto. Qed.

Lemma substring_snoc (c : ascii) (t : string) :
  String.substring 0 (String.length t) (t ++ String c EmptyString) = t.
Proof. induction t as [|a t IH]; simpl; [reflexivity|]. rewrite IH. reflexivity. Qed.

Lemma strip_suffix_app (x c : ascii) (t : string) :
  strip_suffix x (t ++ String c EmptyString)
  = if Ascii.eqb c x then Some t else None.
Proof.
  unfold strip_suffix.
  assert (Hl : String.length (t ++ String c EmptyString) = S (String.length t)).
  { rewrite string_length_append. simpl. lia. }
  rewrite Hl, get_snoc, substring_snoc. reflexivity.
Qed.

Lemma strip_suffix_spec (x : ascii) (s t : string) :
  strip_suffix x s = Some t -> s = t ++ String x EmptyString.
Proof.
  destruct (string_snoc s) as [->|(init & c & ->)]; [discriminate|].
  rewrite strip_suffix_app. destruct (Ascii.eqb c x) eqn:E; [|discriminate].
  apply Ascii.eqb_eq in E. subst. intros [= <-]. reflexivity.
Qed.

Lemma count_newlines_prefix (t : string) (x : ascii) :
  count_newlines t <= count_newlines (t ++ String x EmptyString).
Proof. rewrite count_newlines_app. lia. Qed.

Lemma strip_line_ending_count (piece : string) :
  count_newlines (strip_line_ending piece) <= count_newlines piece.
Proof.
  unfold strip_line_ending.
  destruct (strip_suffix newline piece) as [t|] eqn:E1; [|lia].
  apply strip_suffix_spec in E1. subst piece.
  pose proof (count_newlines_prefix t newline).
  destruct (strip_suffix carriage_return t) as [u|] eqn:E2; [|lia].
  apply strip_suffix_spec in E2. subst t.
  pose proof (count_newlines_prefix u carriage_return). lia.
Qed.

Lemma strip_line_ending_nl (p : string) :
  count_newlines (strip_line_ending (p ++ nl)) <= count_newlines p.
Proof.
  unfold strip_line_ending, nl. rewrite strip_suffix_app. simpl.
  destruct (strip_suffix carriage_return p) as [u|] eqn:E2; [|lia].
  apply strip_suffix_spec in E2. subst p.
  pose proof (count_newlines_prefix u carriage_return). lia.
Qed.

Lemma split_inclusive_nl_pieces (s : string) : forall cur piece,
  count_newlines cur = 0 ->
  In piece (split_inclusive_nl cur s) ->
  count_newlines piece = 0 \/ exists p, piece = p ++ nl /\ count_newlines p = 0.
Proof.
  induction s as [|a s IH]; intros cur piece Hcur Hin; simpl in Hin.
  - destruct cur; simpl in Hin; [contradiction|].
    destruct Hin as [<-|[]]. left. exact Hcur.
  - destruct (Ascii.eqb a newline) eqn:Ea.
    + destruct Hin as [<-|Hin].
      * right. exists cur. apply Ascii.eqb_eq in Ea. subst a. split; [reflexivity|exact Hcur].
      * exact (IH EmptyString piece eq_refl Hin).
    + apply (IH (cur ++ String a EmptyString)); [|exact Hin].
      rewrite count_newlines_app. simpl. rewrite Ea. lia.
Qed.

Lemma split_prefix (s : string) : forall cur, exists pre last,
  forall r, split_inclusive_nl cur (s ++ r) = (pre ++ split_inclusive_nl last r)%list.
Proof.
  induction s as [|a s IH]; intros cur.
  - exists [], cur. reflexivity.
  - simpl. destruct (Ascii.eqb a newline).
    + destruct (IH EmptyString) as (pre & last & H).
      exists ((cur ++ String a EmptyString) :: pre), last. intros r. rewrite H. reflexivity.
    + destruct (IH (cur ++ String a EmptyString)) as (pre & last & H).
      exists pre, last. exact H.
Qed.

Lemma last_byte_cons2 (a b : ascii) (s : string) :
  last_byte (String a (String b s)) = last_byte (String b s).
Proof. reflexivity. Qed.

Lemma last_byte_cons (a : ascii) (s : string) : exists c, last_byte (String a s) = Some c.
Proof.
  revert a. induction s as [|b s IH]; intros a; [eexists; reflexivity|].
  rewrite last_byte_cons2. apply IH.
Qed.

Lemma split_count (s : string) : forall cur,
  List.length (split_inclusive_nl cur s)
  = count_newlines s
    + match last_byte s with
      | Some c => if Ascii.eqb c newline then 0 else 1
      | None => match cur with EmptyString => 0 | _ => 1 end
      end.
Proof.
  induction s as [|a s IH]; intros cur; [destruct cur; reflexivity|].
  cbn [split_inclusive_nl count_newlines].
  destruct (Ascii.eqb a newline) eqn:Ea; cbn [List.length]; rewrite IH;
    destruct s as [|b s].
  - simpl. rewrite Ea. reflexivity.
  - rewrite last_byte_cons2. destruct (last_byte_cons b s) as [c ->]. lia.
  - simpl. rewrite Ea. destruct cur; reflexivity.
  - rewrite last_byte_cons2. destruct (last_byte_cons b s) as [c ->]. lia.
Qed.

End LineFacts.

Lemma counter_after_app (l1 l2 : list string) : forall c,
  counter_after (counter_after c l1) l2 = counter_after c (l1 ++ l2).
Proof. induction l1 as [|x l1 IH]; intros c; simpl; auto. Qed.

Lemma expected_records_app (clock : nat -> string) (l1 l2 : list string) : forall i c,
  expected_records clock i c (l1 ++ l2)
  = (expected_records clock i c l1
     ++ expected_records clock (i + List.length l1) (counter_after c l1) l2)%list.
Proof.
  induction l1 as [|x l1 IH]; intros i c; simpl.
  - rewrite Nat.add_0_r. reflexivity.
  - rewrite IH, Nat.add_succ_r. reflexivity.
Qed.

Lemma expected_records_shift (clock : nat -> string) (k : nat) (l : list string) : forall i c,
  expected_records clock (k + i) c l = expected_records (fun j => clock (k + j)) i c l.
Proof.
  induction l as [|x l IH]; intros i c; simpl; [reflexivity|].
  rewrite <- Nat.add_succ_r, IH. reflexivity.
Qed.

Lemma expected_records_from (clock : nat -> string) (k : nat) (c : N) (l : list string) :
  expected_records clock k c l = expected_records (fun j => clock (k + j)) 0 c l.
Proof. rewrite <- expected_records_shift, Nat.add_0_r. reflexivity. Qed.

Lemma escape_char_printable (c : ascii) :
  forallb (fun x => (32 <=? N_of_ascii x)%N) (list_ascii_of_string (escape_char c)) = true.
Proof. destruct c as [[] [] [] [] [] [] [] []]; reflexivity. Qed.

Lemma list_ascii_of_string_app (x y : string) :
  list_ascii_of_string (x ++ y) = (list_ascii_of_string x ++ list_ascii_of_string y)%list.
Proof. induction x as [|c x IH]; simpl; [reflexivity|]. rewrite IH. reflexivity. Qed.

Lemma escape_str_printable (s : string) :
  forallb (fun x => (32 <=? N_of_ascii x)%N) (list_ascii_of_string (escape_str s)) = true.
Proof.
  induction s as [|c s IH]; [reflexivity|]. cbn [escape_str].
  rewrite list_ascii_of_string_app, forallb_app, escape_char_printable, IH. reflexivity.
Qed.

(** Keys in strictly increasing byte order, as a [Map] holds them. *)
Fixpoint keys_sorted (m : list (string * Value)) : bool :=
  match m with
  | [] => true
  | (k, _) :: m' =>
      forallb (fun kv => match String.compare k (fst kv) with Lt => true | _ => false end) m'
      && keys_sorted m'
  end.

(** The values this model writes and reads back: numbers are [u64], maps
    have their keys in order, and arrays and maps nest at most [d] deep. *)
Fixpoint canonical (d : nat) (v : Value) {struct d} : bool :=
  match v with
  | JNull | JBool _ | JString _ => true
  | JNumber n => (n <? usize_modulus)%N
  | JArray l => match d with O => false | S d' => forallb (canonical d') l end
  | JObject m =>
      match d with
      | O => false
      | S d' => keys_sorted m && forallb (fun kv => canonical d' (snd kv)) m
      end
  end.

(** What [from_str::<Vec<ProcessResult>>] gives back for a record: a
    [data] of [Some(Null)] is read as [None]. *)
Definition normalize (r : ProcessResult) : ProcessResult :=
  match data r with
  | Some JNull => {| success := success r; message := message r; data := None |}
  | _ => r
  end.

Section GeneralRoundtrip.

Lemma map_insert_last (k : string) (v : Value) (acc : list (string * Value)) :
  (forall kv, In kv acc -> String.compare (fst kv) k = Lt) ->
  map_insert k v acc = (acc ++ [(k, v)])%list.
Proof.
  induction acc as [|[k' v'] acc IH]; intros H; [reflexivity|].
  pose proof (H (k', v') (or_introl eq_refl)) as Hk. simpl in Hk.
  simpl. rewrite String.compare_antisym, Hk. simpl.
  rewrite IH; [reflexivity|]. intros kv Hin. apply H. right. exact Hin.
Qed.

Lemma keys_sorted_app (l1 l2 : list (string * Value)) :
  keys_sorted (l1 ++ l2) = true ->
  keys_sorted l2 = true /\
  forall kv1 kv2, In kv1 l1 -> In kv2 l2 -> String.compare (fst kv1) (fst kv2) = Lt.
Proof.
  induction l1 as [|[k v] l1 IH]; intros H; simpl in H.
  - split; [exact H|]. intros kv1 kv2 [].
  - apply andb_prop in H. destruct H as [Hall H]. destruct (IH H) as [H2 Hlt].
    split; [exact H2|]. intros kv1 kv2 [<-|Hin1] Hin2; [|exact (Hlt _ _ Hin1 Hin2)].
    rewrite forallb_forall in Hall. specialize (Hall kv2 (in_or_app _ _ _ (or_intror Hin2))).
    simpl. destruct (String.compare k (fst kv2)); [discriminate|reflexivity|discriminate].
Qed.

Lemma fold_insert_sorted (m : list (string * Value)) : forall acc,
  keys_sorted (acc ++ m) = true ->
  fold_left (fun acc kv => map_insert (fst kv) (snd kv) acc) m acc = (acc ++ m)%list.
Proof.
  induction m as [|[k v] m IH]; intros acc H; simpl.
  - rewrite app_nil_r. reflexivity.
  - destruct (keys_sorted_app acc ((k, v) :: m) H) as [_ Hlt].
    rewrite map_insert_last by (intros kv Hin; exact (Hlt kv (k, v) Hin (or_introl eq_refl))).
    rewrite IH; [rewrite <- app_assoc; reflexivity|]. rewrite <- app_assoc. exact H.
Qed.

Lemma parse_value_null (d : nat) (r : string) :
  parse_value d ("null" ++ r) = Some (JNull, r).
Proof. destruct d; reflexivity. Qed.

Lemma parse_value_canonical (d : nat) : forall v lvl R,
  canonical d v = true -> cont_ok R ->
  parse_value (S d) (to_pretty lvl v ++ R) = Some (v, R).
Proof.
  induction d as [|d IH]; intros v lvl R Hv HR.
  - destruct v as [| b | n | s | l | m]; simpl in Hv; try discriminate.
    + apply parse_value_null.
    + exact (parse_value_bool 1 b R).
    + apply parse_value_number; [apply N.ltb_lt; exact Hv|exact HR].
    + apply parse_value_string.
  - destruct v as [| b | n | s | l | m]; simpl in Hv.
    + apply parse_value_null.
    + exact (parse_value_bool _ b R).
    + apply parse_value_number; [apply N.ltb_lt; exact Hv|exact HR].
    + apply parse_value_string.
    + destruct l as [|v0 l0]; [reflexivity|].
      rewrite (parse_value_array d lvl (fun v => v)); [rewrite map_id; reflexivity|discriminate|].
      intros v Hin R' HR'. rewrite forallb_forall in Hv.
      exact (IH v (S lvl) R' (Hv v Hin) HR').
    + destruct m as [|kv0 m0]; [reflexivity|].
      apply andb_prop in Hv. destruct Hv as [Hs Hv].
      rewrite (parse_value_object d lvl (fun v => v)); [|discriminate|].
      * f_equal. f_equal. f_equal. exact (fold_insert_sorted (kv0 :: m0) [] Hs).
      * intros k v Hin R' HR'. rewrite forallb_forall in Hv.
        exact (IH v (S lvl) R' (Hv (k, v) Hin) HR').
Qed.

End GeneralRoundtrip.

(** A record whose [data] is absent, or a value nesting at most 125 deep:
    with the array of records and the record object around it, within
    serde_json's recursion limit of 128. *)
Definition data_ok (r : ProcessResult) : bool :=
  match data r with None => true | Some v => canonical 125 v end.

Lemma parse_value_any_record (lvl : nat) (r : ProcessResult) (R : string) :
  data_ok r = true -> cont_ok R ->
  parse_value 127 (to_pretty lvl (process_result_to_value r) ++ R)
  = Some (reparse (process_result_to_value r), R).
Proof.
  intros Hd HR. unfold process_result_to_value.
  rewrite (parse_value_object 125 lvl (fun v => v)); [reflexivity|discriminate|].
  intros k v Hin R' HR'. simpl in Hin.
  destruct Hin as [E|[E|[E|[]]]]; injection E; intros; subst.
  - exact (parse_value_bool _ _ R').
  - exact (parse_value_string _ _ _).
  - unfold data_ok in Hd. destruct (data r) as [v|].
    + exact (parse_value_canonical 125 v (S lvl) R' Hd HR').
    + apply parse_value_null.
Qed.

Lemma from_value_normalize (r : ProcessResult) :
  process_result_from_value (reparse (process_result_to_value r)) = Some (normalize r).
Proof. destruct r as [b m [v|]]; [destruct v|]; reflexivity. Qed.

Lemma results_from_values_normalize (rs : list ProcessResult) :
  process_results_from_values (map reparse (map process_result_to_value rs))
  = Some (map normalize rs).
Proof.
  induction rs as [|r rs IH]; [reflexivity|].
  cbn [map process_results_from_values]. rewrite from_value_normalize, IH. reflexivity.
Qed.

(** ** The claims *)

(** C1: from a new processor, processing the [L] lines of a text (a Rust
    [String] holds fewer than 2^63 bytes) gives exactly [L] records, one per
    line in line order, with item numbers [1, ..., L]. *)
Theorem pipeline_records_numbered (v : bool) (clock : nat -> string)
  (input_data : string)
  (Hsize : (N.of_nat (str_len input_data) < 2 ^ 63)%N) :
  let L := List.length (lines input_data) in
  exists logs rs,
    process_input_data clock input_data (new v)
    = (logs, {| verbose := v; processed_count := N.of_nat L |}, Ok rs) /\
    List.length rs = L /\
    map (number_field "item_number") rs = map (fun j => Some (N.of_nat j)) (seq 1 L) /\
    map (number_field "length") rs
    = map (fun line => Some (N.of_nat (str_len line))) (lines input_data).
Proof.
  intros L. unfold process_input_data.
  destruct (process_lines_eq clock (lines input_data) 0 (new v)) as [logs H].
  pose proof (lines_count input_data) as Hc.
  assert (HL : (0 + N.of_nat (List.length (lines input_data)) < usize_modulus)%N).
  { unfold usize_modulus. lia. }
  exists logs, (expected_records clock 0 0 (lines input_data)).
  rewrite H. simpl. rewrite counter_after_small by exact HL.
  split; [reflexivity|].
  split; [apply expected_records_length|].
  split.
  - rewrite expected_item_numbers by exact HL. reflexivity.
  - apply expected_lengths.
Qed.

Lemma pipeline_records_numbered_witness :
  (N.of_nat (str_len ("ab" ++ nl ++ "c")) < 2 ^ 63)%N /\
  (let L := List.length (lines ("ab" ++ nl ++ "c")) in
   exists logs rs,
    process_input_data (fun _ => "t") ("ab" ++ nl ++ "c") (new true)
    = (logs, {| verbose := true; processed_count := N.of_nat L |}, Ok rs) /\
    List.length rs = L /\
    map (number_field "item_number") rs = map (fun j => Some (N.of_nat j)) (seq 1 L) /\
    map (number_field "length") rs
    = map (fun line => Some (N.of_nat (str_len line))) (lines ("ab" ++ nl ++ "c"))).
Proof.
  split; [reflexivity|].
  apply (pipeline_records_numbered true (fun _ => "t") ("ab" ++ nl ++ "c")).
  reflexivity.
Defined.

(** C2: a new processor's count is 0; a call to [process] on any line
    (the empty one included) adds exactly 1 to the count and returns that
    value as [item_number], while the count stays a [usize]; so the calls on
    one instance number their items 1, 2, 3, ... *)
Theorem processed_count_increments :
  (forall v, processed_count (new v) = 0%N) /\
  (forall self now line,
     (processed_count self + 1 < usize_modulus)%N ->
     let '(_, self', r) := process now line self in
     processed_count self' = (processed_count self + 1)%N /\
     exists rec, r = Ok rec /\
       number_field "item_number" rec = Some (processed_count self + 1)%N) /\
  (forall v clock ls,
     (N.of_nat (List.length ls) < usize_modulus)%N ->
     exists logs rs,
       process_lines clock 0 ls (new v)
       = (logs, {| verbose := v; processed_count := N.of_nat (List.length ls) |}, Ok rs) /\
       map (number_field "item_number") rs
       = map (fun j => Some (N.of_nat j)) (seq 1 (List.length ls))).
Proof.
  split; [reflexivity|]. split.
  - intros self now line H. rewrite process_eq. simpl.
    rewrite usize_succ_small by exact H.
    split; [reflexivity|]. eexists. split; [reflexivity|].
    apply expected_record_item_number.
  - intros v clock ls H.
    destruct (process_lines_eq clock ls 0 (new v)) as [logs Hp].
    exists logs, (expected_records clock 0 0 ls). rewrite Hp. simpl.
    rewrite counter_after_small by (simpl; exact H).
    split; [reflexivity|].
    rewrite expected_item_numbers by (simpl; exact H). reflexivity.
Qed.

Lemma processed_count_increments_witness :
  (let '(_, self', r) := process "t" "" (mkProcessor false 41) in
   processed_count self' = 42%N /\
   exists rec, r = Ok rec /\ number_field "item_number" rec = Some 42%N) /\
  (exists logs rs,
     process_lines (fun _ => "t") 0 [""; "x"] (new true)
     = (logs, {| verbose := true; processed_count := 2 |}, Ok rs) /\
     map (number_field "item_number") rs = [Some 1%N; Some 2%N]).
Proof.
  destruct processed_count_increments as [_ [Hstep Hseq]]. split.
  - apply (Hstep (mkProcessor false 41) "t" ""). reflexivity.
  - apply (Hseq true (fun _ => "t") [""; "x"]). reflexivity.
Defined.

(** C3: [process] never returns an error: from any state, on any line, it
    returns a record with [success = true], the message
    "Successfully processed item #N" and [item_number = N], where [N] is the
    counter after its increment. *)
Theorem process_never_fails (self : TreasuryManagerProcessor) (now line : string) :
  let '(_, self', r) := process now line self in
  processed_count self' = usize_succ (processed_count self) /\
  exists rec, r = Ok rec /\
    success rec = true /\
    message rec = "Successfully processed item #" ++ usize_to_string (processed_count self') /\
    number_field "item_number" rec = Some (processed_count self').
Proof.
  rewrite process_eq. simpl. split; [reflexivity|].
  eexists. split; [reflexivity|]. split; [reflexivity|]. split; [reflexivity|].
  apply expected_record_item_number.
Qed.

(** C4: the [length] of the record [process] returns is the length of its
    line (0 for the empty line); the text "alpha\nbeta\ngamma" gives three
    records numbered 1, 2, 3 with lengths 5, 4, 5. *)
Theorem record_length_is_line_length :
  (forall self now line,
     let '(_, _, r) := process now line self in
     exists rec, r = Ok rec /\
       number_field "length" rec = Some (N.of_nat (str_len line))) /\
  (forall self now, let '(_, _, r) := process now "" self in
     exists rec, r = Ok rec /\ number_field "length" rec = Some 0%N) /\
  (forall clock v,
     let '(_, _, r) := process_input_data clock
                         ("alpha" ++ nl ++ "beta" ++ nl ++ "gamma") (new v) in
     exists rs, r = Ok rs /\
       map (number_field "item_number") rs = [Some 1%N; Some 2%N; Some 3%N] /\
       map (number_field "length") rs = [Some 5%N; Some 4%N; Some 5%N]).
Proof.
  split; [|split].
  - intros self now line. rewrite process_eq.
    eexists. split; [reflexivity|]. apply expected_record_length.
  - intros self now. rewrite process_eq.
    eexists. split; [reflexivity|]. apply expected_record_length.
  - intros clock v. unfold process_input_data.
    destruct (process_lines_eq clock (lines ("alpha" ++ nl ++ "beta" ++ nl ++ "gamma"))
                0 (new v)) as [logs Hp].
    rewrite Hp. eexists. split; [reflexivity|]. split; reflexivity.
Qed.

(** C8: [get_stats] reports the current count and the [verbose] flag; any
    number of calls leave the processor as it was and log nothing; no
    operation changes [verbose] after [new]. *)
Theorem get_stats_read_only :
  (forall self,
     get_stats self = JObject [("processed_count", JNumber (processed_count self));
                               ("verbose", JBool (verbose self))]) /\
  (forall n self, get_stats_times n self = ([], self, Ok (repeat (get_stats self) n))) /\
  (forall v, verbose (new v) = v) /\
  (forall self now line,
     let '(_, self', _) := process now line self in verbose self' = verbose self) /\
  (forall clock i ls self,
     let '(_, self', _) := process_lines clock i ls self in verbose self' = verbose self) /\
  (forall fs clock v input output events p rs,
     run fs clock v input output = (events, Finished p rs) -> verbose p = v).
Proof.
  split; [reflexivity|]. split; [|split; [reflexivity|]; split; [|split]].
  - induction n as [|n IH]; intros self; [reflexivity|].
    simpl. unfold bind at 1. simpl. unfold bind. rewrite IH. reflexivity.
  - intros self now line. rewrite process_eq. reflexivity.
  - intros clock i ls self.
    destruct (process_lines_eq clock ls i self) as [logs Hp]. rewrite Hp. reflexivity.
  - intros fs clock v input output events p rs. unfold run.
    destruct (match input with
              | Some path => _
              | None => _
              end) as [read_log [text|e]]; [|discriminate].
    unfold process_input_data.
    destruct (process_lines_eq clock (lines text) 0 (new v)) as [logs Hp]. rewrite Hp.
    destruct (output_results fs output _) as [out [msg|]]; [discriminate|].
    intros [=]. subst. reflexivity.
Qed.

Definition fs_ok : Filesystem :=
  {| read_to_string := fun _ => Ok ("a" ++ nl ++ "b"); write := fun _ _ => Ok tt |}.

Lemma get_stats_read_only_witness :
  run fs_ok (fun _ => "t") true (Some "in") None
  = (fst (run fs_ok (fun _ => "t") true (Some "in") None),
     Finished {| verbose := true; processed_count := 2 |}
              (expected_records (fun _ => "t") 0 0 ["a"; "b"])) /\
  verbose {| verbose := true; processed_count := 2 |} = true.
Proof.
  split; [vm_compute; reflexivity|].
  destruct get_stats_read_only as [_ [_ [_ [_ [_ Hrun]]]]].
  apply (Hrun fs_ok (fun _ => "t") true (Some "in") None
            (fst (run fs_ok (fun _ => "t") true (Some "in") None)) _
            (expected_records (fun _ => "t") 0 0 ["a"; "b"])).
  vm_compute. reflexivity.
Defined.

(** C9: two processors that differ only in [verbose] return the same record
    and reach the same count on the same line at the same time. *)
Theorem verbose_noninterference (v1 v2 : bool) (c : N) (now line : string) :
  let '(_, s1, r1) := process now line (mkProcessor v1 c) in
  let '(_, s2, r2) := process now line (mkProcessor v2 c) in
  r1 = r2 /\ processed_count s1 = processed_count s2.
Proof. rewrite !process_eq. split; reflexivity. Qed.

(** C5 (as the code has it): [lines] keeps a last line that has no
    newline after it and gives no line for the empty text; a run without an
    input path processes no record and leaves the count at 0; it ends
    normally when there is no output path or writing [[]] to it succeeds,
    and panics when that write fails. *)
Theorem lines_and_run_without_input :
  lines EmptyString = [] /\
  (forall t, t <> EmptyString -> (forall k, String.get k t <> Some newline) ->
     lines t = [t]) /\
  (forall s t, t <> EmptyString -> (forall k, String.get k t <> Some newline) ->
     lines (s ++ String newline t) = (lines (s ++ nl) ++ [t])%list) /\
  (forall fs clock v output,
     (forall path, output = Some path -> write fs path "[]" = Ok tt) ->
     exists events, run fs clock v None output = (events, Finished (new v) [])) /\
  (forall fs clock v path e,
     write fs path "[]" = Err e ->
     exists events, run fs clock v None (Some path)
                    = (events, Panicked "Failed to write output file")).
Proof.
  split; [reflexivity|]. split; [|split; [|split]].
  - intros t Hne Hnl. unfold lines.
    rewrite split_inclusive_nl_last by (simpl; assumption).
    simpl. rewrite strip_line_ending_no_newline by exact Hnl. reflexivity.
  - intros s t Hne Hnl. unfold lines.
    rewrite split_inclusive_nl_app, map_app.
    rewrite (split_inclusive_nl_last t) by (simpl; assumption).
    simpl. rewrite strip_line_ending_no_newline by exact Hnl. reflexivity.
  - intros fs clock v [path|] Hw; eexists.
    + cbn. rewrite (Hw path eq_refl). reflexivity.
    + reflexivity.
  - intros fs clock v path e Hw. eexists. cbn. rewrite Hw. reflexivity.
Qed.

Definition fs_readonly : Filesystem :=
  {| read_to_string := fun _ => Err (IoError "not found");
     write := fun _ _ => Err (IoError "permission denied") |}.

Lemma lines_and_run_without_input_witness :
  lines ("ab" ++ String newline "c") = (lines ("ab" ++ nl) ++ ["c"])%list /\
  (exists events, run fs_ok (fun _ => "t") false None (Some "out")
                  = (events, Finished (new false) [])) /\
  (exists events, run fs_readonly (fun _ => "t") false None (Some "out")
                  = (events, Panicked "Failed to write output file")).
Proof.
  destruct lines_and_run_without_input as [_ [_ [Happ [Hok Hpanic]]]].
  split; [|split].
  - apply (Happ "ab" "c"); [discriminate|].
    intros [|[|k]]; simpl; [discriminate|discriminate|destruct k; discriminate].
  - apply (Hok fs_ok (fun _ => "t") false (Some "out")).
    intros path [=<-]. reflexivity.
  - apply (Hpanic fs_readonly (fun _ => "t") false "out" (IoError "permission denied")).
    reflexivity.
Defined.

(** C5, as stated, fails: with no input path and an output path whose
    write fails, the run panics instead of returning success. *)
Lemma run_without_input_can_panic :
  ~ (forall fs clock v output,
       exists events p, run fs clock v None output = (events, Finished p []) /\
                        processed_count p = 0%N).
Proof.
  intros H. destruct (H fs_readonly (fun _ => "t") false (Some "out")) as [events [p [Hr _]]].
  vm_compute in Hr. discriminate.
Qed.

(** C6: when the input path cannot be read, [run] returns that error at
    once: nothing was processed or logged by the processor, and no file was
    written. *)
Theorem run_read_error_aborts (fs : Filesystem) (clock : nat -> string) (v : bool)
  (path : string) (output : option string) (e : Error)
  (Hread : read_to_string fs path = Err e) :
  run fs clock v (Some path) output
  = ([Log Info "Starting TreasuryManager processing";
      Log Info ("Reading input from file: " ++ path)], Failed e).
Proof. unfold run. rewrite Hread. reflexivity. Qed.

Lemma run_read_error_aborts_witness :
  run fs_readonly (fun _ => "t") true (Some "missing") (Some "out")
  = ([Log Info "Starting TreasuryManager processing";
      Log Info ("Reading input from file: " ++ "missing")], Failed (IoError "not found")).
Proof. apply run_read_error_aborts. reflexivity. Defined.

(** C7: the records [process_input_data] collects, written by
    [to_string_pretty] and read back by [serde_json::from_str] into
    [Vec<ProcessResult>], come back equal to the originals: the same
    [success], [message] and [data] (so the same [length] and
    [item_number], and here even the same [processed_at]). The input is
    assumed shorter than [2^64] bytes, so that every [length] is a [usize]. *)
Theorem output_roundtrip (clock : nat -> string) (input_data : string)
  (self : TreasuryManagerProcessor)
  (Hsize : (N.of_nat (str_len input_data) < usize_modulus)%N) :
  exists logs self' rs,
    process_input_data clock input_data self = (logs, self', Ok rs) /\
    from_str_results (to_string_pretty rs) = Some rs.
Proof.
  unfold process_input_data.
  destruct (process_lines_eq clock (lines input_data) 0 self) as [logs H].
  rewrite H. do 3 eexists. split; [reflexivity|].
  apply expected_records_roundtrip. intros line Hin.
  pose proof (lines_length input_data line Hin). lia.
Qed.

Lemma output_roundtrip_witness :
  (N.of_nat (str_len ("a" ++ String quote "b" ++ nl ++ nl ++ "c")) < usize_modulus)%N /\
  exists logs self' rs,
    process_input_data (fun _ => "t") ("a" ++ String quote "b" ++ nl ++ nl ++ "c")
      (new true) = (logs, self', Ok rs) /\
    from_str_results (to_string_pretty rs) = Some rs.
Proof.
  split; [vm_compute; reflexivity|].
  apply (output_roundtrip (fun _ => "t") ("a" ++ String quote "b" ++ nl ++ nl ++ "c")).
  vm_compute. reflexivity.
Defined.

(** C10: the [length] of a record is the UTF-8 byte count of its line
    ([str::len]); a line with a non-ASCII character has more bytes than
    characters. *)
Theorem length_is_byte_count (self : TreasuryManagerProcessor) (now : string)
  (cs : list N) (Hnonascii : Exists (fun c => (128 <= c)%N) cs) :
  let '(_, _, r) := process now (utf8_encode cs) self in
  exists rec, r = Ok rec /\
    number_field "length" rec = Some (N.of_nat (str_len (utf8_encode cs))) /\
    List.length cs < str_len (utf8_encode cs).
Proof.
  rewrite process_eq. eexists. split; [reflexivity|]. split.
  - apply expected_record_length.
  - apply utf8_encode_length. exact Hnonascii.
Qed.

Lemma length_is_byte_count_witness :
  Exists (fun c => (128 <= c)%N) [97%N; 233%N] /\
  (let '(_, _, r) := process "t" (utf8_encode [97%N; 233%N]) (new false) in
   exists rec, r = Ok rec /\
     number_field "length" rec = Some (N.of_nat (str_len (utf8_encode [97%N; 233%N]))) /\
     List.length [97%N; 233%N] < str_len (utf8_encode [97%N; 233%N])).
Proof.
  assert (H : Exists (fun c => (128 <= c)%N) [97%N; 233%N]).
  { apply Exists_cons_tl. apply Exists_cons_hd. vm_compute. discriminate. }
  split; [exact H|]. apply length_is_byte_count. exact H.
Defined.

(** ** Further properties of the code *)

(** X1: a run that reads its input file and can write its output file
    ends normally; it logs the start, the read, one debug record per line
    when [verbose], the output path, and writes the pretty JSON of its
    records to the output path. The processor has counted the lines, there
    is one record per line, and the written text reads back as the
    records. *)
Theorem run_writes_results (fs : Filesystem) (clock : nat -> string) (v : bool)
  (inp out text : string)
  (Hread : read_to_string fs inp = Ok text)
  (Hwrite : forall contents, write fs out contents = Ok tt)
  (Hsize : (N.of_nat (str_len text) < usize_modulus)%N) :
  exists rs,
    run fs clock v (Some inp) (Some out)
    = ([Log Info "Starting TreasuryManager processing";
        Log Info ("Reading input from file: " ++ inp)]
       ++ debug_events v (lines text)
       ++ [Log Info ("Outputting results to file: " ++ out);
           WroteFile out (to_string_pretty rs)],
       Finished {| verbose := v;
                   processed_count := N.of_nat (List.length (lines text)) |} rs)%list /\
    List.length rs = List.length (lines text) /\
    from_str_results (to_string_pretty rs) = Some rs.
Proof.
  exists (expected_records clock 0 0 (lines text)).
  rewrite (run_read_ok clock fs v (Some inp) (Some out) text
             [Log Info ("Reading input from file: " ++ inp)]) by (split; [reflexivity|exact Hread]).
  cbn zeta. unfold output_results. rewrite Hwrite.
  rewrite log_events_process_log.
  pose proof (lines_count text) as Hc.
  rewrite (counter_after_small (lines text) 0) by (unfold usize_modulus in *; lia).
  split; [reflexivity|]. split; [apply expected_records_length|].
  apply expected_records_roundtrip. intros line Hin.
  pose proof (lines_length text line Hin). lia.
Qed.

(** A filesystem that holds one input text and accepts every write. *)
Definition fs_memory : Filesystem :=
  {| read_to_string := fun _ => Ok ("a" ++ nl ++ "bc"); write := fun _ _ => Ok tt |}.

Lemma run_writes_results_witness :
  exists rs,
    run fs_memory (fun _ => "t") true (Some "in") (Some "out")
    = ([Log Info "Starting TreasuryManager processing";
        Log Info ("Reading input from file: " ++ "in")]
       ++ debug_events true (lines ("a" ++ nl ++ "bc"))
       ++ [Log Info ("Outputting results to file: " ++ "out");
           WroteFile "out" (to_string_pretty rs)],
       Finished {| verbose := true;
                   processed_count := N.of_nat (List.length (lines ("a" ++ nl ++ "bc"))) |}
                rs)%list /\
    List.length rs = List.length (lines ("a" ++ nl ++ "bc")) /\
    from_str_results (to_string_pretty rs) = Some rs.
Proof.
  apply (run_writes_results fs_memory (fun _ => "t") true "in" "out" ("a" ++ nl ++ "bc")).
  - reflexivity.
  - intros contents. reflexivity.
  - vm_compute. reflexivity.
Defined.

(** X2: a run writes at most one file; a written file is at the output
    path, and the run then ends normally with the written text being the
    pretty JSON of its records. Without an output path nothing is
    written. *)
Theorem run_writes_only_output (fs : Filesystem) (clock : nat -> string) (v : bool)
  (input output : option string) :
  let '(events, outcome) := run fs clock v input output in
  List.length (filter is_write events) <= 1 /\
  forall path contents, In (WroteFile path contents) events ->
    output = Some path /\
    exists p rs, outcome = Finished p rs /\ contents = to_string_pretty rs.
Proof.
  destruct (run_shape fs clock v input output)
    as [(path & e & _ & _ & ->) | (text & read_log & [m ->] & ->)].
  - split; [simpl; lia|]. intros p c H. simpl in H. intuition discriminate.
  - cbn zeta. unfold output_results.
    destruct output as [out|]; [destruct (write fs out _) as [u|e] eqn:Hw|];
      (split; [rewrite !filter_app, log_events_no_write; simpl; lia|]);
      intros p c H; apply in_filter_write in H;
      rewrite !filter_app, log_events_no_write in H; simpl in H;
      first [contradiction
            |destruct H as [[= <- <-]|[]]; split; [reflexivity|];
             do 2 eexists; split; reflexivity].
Qed.

(** X3: a run fails only with the error of reading its input path; it
    panics only with [Failed to write output file], after a write to its
    output path failed; when it ends normally its processor keeps the
    [verbose] flag of the run and the output path, if any, has the JSON of
    its records. *)
Theorem run_outcome_cases (fs : Filesystem) (clock : nat -> string) (v : bool)
  (input output : option string) :
  let '(events, outcome) := run fs clock v input output in
  match outcome with
  | Failed e => exists path, input = Some path /\ read_to_string fs path = Err e
  | Panicked msg =>
      msg = "Failed to write output file" /\
      exists path contents e, output = Some path /\ write fs path contents = Err e
  | Finished p rs =>
      verbose p = v /\
      forall path, output = Some path -> In (WroteFile path (to_string_pretty rs)) events
  end.
Proof.
  destruct (run_shape fs clock v input output)
    as [(path & e & Hin & Hr & ->) | (text & read_log & _ & ->)].
  - exists path. split; assumption.
  - cbn zeta. unfold output_results.
    destruct output as [out|]; [destruct (write fs out _) as [u|e] eqn:Hw|].
    + split; [reflexivity|]. intros path [= <-].
      apply in_or_app. right. apply in_or_app. right. apply in_or_app. right.
      right. left. reflexivity.
    + split; [reflexivity|]. exists out, (to_string_pretty (expected_records clock 0 0 (lines text))), e.
      split; [reflexivity|exact Hw].
    + split; [reflexivity|]. intros path [=].
Qed.

(** X4: a run that is not [verbose] logs nothing at the debug level,
    whatever its input, output and outcome. *)
Theorem run_quiet_unless_verbose (fs : Filesystem) (clock : nat -> string)
  (input output : option string) (msg : string) :
  ~ In (Log Debug msg) (fst (run fs clock false input output)).
Proof.
  destruct (run_shape fs clock false input output)
    as [(path & e & _ & _ & ->) | (text & read_log & [m ->] & ->)].
  - simpl. intuition discriminate.
  - cbn zeta. rewrite log_events_process_log, debug_events_false.
    unfold output_results.
    destruct output as [out|]; [destruct (write fs out _)|]; simpl;
      intuition discriminate.
Qed.

(** X5: no line that [lines] gives contains a ['\n'] byte. *)
Theorem lines_no_newline (s line : string) :
  In line (lines s) -> count_newlines line = 0.
Proof.
  unfold lines. intros Hin. apply in_map_iff in Hin. destruct Hin as (piece & <- & Hin).
  destruct (split_inclusive_nl_pieces s EmptyString piece eq_refl Hin)
    as [H|(p & -> & H)].
  - pose proof (strip_line_ending_count piece). lia.
  - pose proof (strip_line_ending_nl p). lia.
Qed.

Lemma lines_no_newline_witness : count_newlines "bc" = 0.
Proof. apply (lines_no_newline ("a" ++ nl ++ "bc") "bc"). vm_compute. right. left. reflexivity. Defined.

(** X6: the number of lines of a text (so of records) is its number of
    ['\n'] bytes, plus one when it ends with another byte. *)
Theorem lines_count_newlines (s : string) :
  List.length (lines s)
  = count_newlines s
    + match last_byte s with
      | Some c => if Ascii.eqb c newline then 0 else 1
      | None => 0
      end.
Proof.
  unfold lines. rewrite length_map, split_count.
  destruct (last_byte s); reflexivity.
Qed.

(** X7: the lines of two texts joined at a ['\n'] are the lines of the
    first, with its ['\n'], followed by the lines of the second. *)
Theorem lines_app_newline (s t : string) :
  lines (s ++ String newline t) = (lines (s ++ nl) ++ lines t)%list.
Proof. unfold lines. rewrite split_inclusive_nl_app, map_app. reflexivity. Qed.

(** X8: when a text ends with a byte other than ['\n'] and ['\r'],
    adding a final ['\n'] or ['\r\n'] to it does not change its lines. *)
Theorem lines_line_terminators (s : string) (c : ascii) :
  Ascii.eqb c newline = false -> Ascii.eqb c carriage_return = false ->
  lines (s ++ String c nl) = lines (s ++ String c EmptyString) /\
  lines (s ++ String c (String carriage_return nl)) = lines (s ++ String c EmptyString).
Proof.
  intros Hn Hr. unfold lines.
  destruct (split_prefix s EmptyString) as (pre & last & H).
  rewrite !H. simpl split_inclusive_nl. rewrite Hn. simpl.
  assert (Hcr : Ascii.eqb carriage_return newline = false) by reflexivity.
  try rewrite Hcr; simpl.
  set (L := last ++ String c EmptyString).
  assert (HL : match L with EmptyString => [] | _ => [L] end = [L]).
  { subst L. destruct last; reflexivity. }
  rewrite HL, !map_app. simpl.
  assert (E0 : strip_line_ending L = L).
  { unfold strip_line_ending, L. rewrite strip_suffix_app, Hn. reflexivity. }
  assert (E1 : strip_line_ending (L ++ String newline EmptyString) = L).
  { unfold strip_line_ending. rewrite strip_suffix_app. simpl.
    unfold L. rewrite strip_suffix_app.
    destruct (Ascii.eqb c carriage_return); [discriminate|reflexivity]. }
  assert (E2 : strip_line_ending ((L ++ String carriage_return EmptyString)
                                  ++ String newline EmptyString) = L).
  { unfold strip_line_ending. rewrite strip_suffix_app. simpl.
    rewrite strip_suffix_app. reflexivity. }
  rewrite E0, E1, E2. split; reflexivity.
Qed.

Lemma lines_line_terminators_witness :
  lines ("a" ++ nl ++ String "b" nl) = lines ("a" ++ nl ++ String "b" EmptyString) /\
  lines ("a" ++ nl ++ String "b" (String carriage_return nl))
  = lines ("a" ++ nl ++ String "b" EmptyString).
Proof. apply (lines_line_terminators ("a" ++ nl) "b"); reflexivity. Defined.

(** X9: processing two texts joined at a ['\n'] is processing the first,
    with its ['\n'], then the second with the same processor, the clock
    readings continuing: the logs and the records are concatenated. *)
Theorem process_input_data_app (clock : nat -> string) (s t : string)
  (self : TreasuryManagerProcessor) :
  exists l1 l2 self1 self2 rs1 rs2,
    process_input_data clock (s ++ nl) self = (l1, self1, Ok rs1) /\
    process_input_data (fun i => clock (List.length rs1 + i)) t self1 = (l2, self2, Ok rs2) /\
    process_input_data clock (s ++ String newline t) self
    = ((l1 ++ l2)%list, self2, Ok (rs1 ++ rs2)%list).
Proof.
  unfold process_input_data.
  do 6 eexists. split; [rewrite process_lines_full; reflexivity|].
  split; [rewrite process_lines_full; reflexivity|].
  rewrite process_lines_full. cbn [verbose processed_count].
  rewrite lines_app, flat_map_app, counter_after_app, expected_records_app,
    expected_records_length, Nat.add_0_l.
  rewrite (expected_records_from clock (List.length (lines (s ++ nl)))).
  reflexivity.
Qed.


(** X11: a string written as JSON has no byte below 0x20 (it stays on one
    line whatever it holds) and reads back as the same string. *)
Theorem format_string_roundtrip (s : string) :
  (forall x, In x (list_ascii_of_string (format_string s)) -> (32 <= N_of_ascii x)%N) /\
  from_str_value (format_string s) = Some (JString s).
Proof.
  split.
  - intros x Hx. unfold format_string in Hx. simpl in Hx.
    rewrite list_ascii_of_string_app in Hx. simpl in Hx.
    destruct Hx as [<-|Hx]; [vm_compute; discriminate|].
    apply in_app_or in Hx. destruct Hx as [Hx|[<-|[]]]; [|vm_compute; discriminate].
    pose proof (escape_str_printable s) as H. rewrite forallb_forall in H.
    apply H in Hx. apply N.leb_le. exact Hx.
  - unfold from_str_value. rewrite <- (string_append_nil (format_string s)).
    rewrite parse_value_string. reflexivity.
Qed.

(** X12: for any records whose [data] is absent or a value of this model
    with ordered keys and nesting at most 125 deep, the pretty JSON of
    the records reads back as the same records, except that a [data] of
    [Some(Null)] comes back as [None]. *)
Theorem results_roundtrip (rs : list ProcessResult) :
  forallb data_ok rs = true ->
  from_str_results (to_string_pretty rs) = Some (map normalize rs).
Proof.
  intros Hok. destruct rs as [|r0 rs0]; [reflexivity|].
  unfold from_str_results, from_str_value, to_string_pretty.
  rewrite <- (string_append_nil (to_pretty 0 _)).
  change recursion_limit with (S (S 126)).
  rewrite (parse_value_array 126 0 reparse).
  - cbn [skip_ws]. rewrite <- results_from_values_normalize, map_map. reflexivity.
  - discriminate.
  - intros v Hin R HR. apply in_map_iff in Hin. destruct Hin as (r & <- & Hin).
    rewrite forallb_forall in Hok.
    exact (parse_value_any_record 1 r R (Hok r Hin) HR).
Qed.

Lemma results_roundtrip_witness :
  forallb data_ok
    [{| success := false; message := "a" ++ String quote "b"; data := Some JNull |};
     {| success := true; message := "";
        data := Some (JObject [("k", JArray [JNumber 7; JObject []]); ("z", JString nl)]) |}]
  = true /\
  from_str_results (to_string_pretty
    [{| success := false; message := "a" ++ String quote "b"; data := Some JNull |};
     {| success := true; message := "";
        data := Some (JObject [("k", JArray [JNumber 7; JObject []]); ("z", JString nl)]) |}])
  = Some (map normalize
    [{| success := false; message := "a" ++ String quote "b"; data := Some JNull |};
     {| success := true; message := "";
        data := Some (JObject [("k", JArray [JNumber 7; JObject []]); ("z", JString nl)]) |}]).
Proof. split; [vm_compute; reflexivity|]. apply results_roundtrip. vm_compute. reflexivity. Defined.
